(** * urql-exhaustive-additional-typenames-exchange

    A shallow embedding of [src/index.ts]: the schema-aware walk over a
    query's selection tree that collects the element type names of every
    list field, and the exchange stage that republishes the operation
    context with that list. *)

From stdpp Require Import base option list strings gmap.

Local Open Scope string_scope.
Local Open Scope list_scope.
Set Warnings "-register-all".

(** ** Schema types (the graphql-js type objects the code inspects) *)

(** The class of a named type object; the code only ever tests
    [instanceof GraphQLObjectType] and [instanceof GraphQLInterfaceType]. *)
Inductive TypeKind : Type :=
  | SCALAR | OBJECT | INTERFACE | UNION | ENUM | INPUT_OBJECT.

(** [GraphQLOutputType]: a named type wrapped in any number of
    [GraphQLList] / [GraphQLNonNull] layers.  The type graph is cyclic, so
    a leaf holds the name under which the schema registers the type
    object. *)
Inductive GraphQLOutputType : Type :=
  | Named (typeName : string)
  | GraphQLList (ofType : GraphQLOutputType)
  | GraphQLNonNull (ofType : GraphQLOutputType).

(** What the schema stores for one named type: its class and, for the
    classes that have them, its field map ([getFields()], an object keyed
    by field name whose values carry the declared output type). *)
Record TypeDefinition : Type := {
  def_kind : TypeKind;
  def_fields : gmap string GraphQLOutputType
}.

(** A [GraphQLNamedType] object as handed around by the walker. *)
Record GraphQLNamedType : Type := {
  name : string;
  kind : TypeKind;
  getFields : gmap string GraphQLOutputType
}.

(** [GraphQLSchema]: the type map, keyed by type name, and the name of the
    root query type when the schema has one. *)
Record GraphQLSchema : Type := {
  queryTypeName : option string;
  typeMap : gmap string TypeDefinition
}.

(** [schema.getType(name)]: [None] is the [undefined] of an unknown name. *)
Definition getType (schema : GraphQLSchema) (typeName : string)
  : option GraphQLNamedType :=
  d ← typeMap schema !! typeName;
  Some {| name := typeName; kind := def_kind d; getFields := def_fields d |}.

(** [schema.getQueryType()]. *)
Definition getQueryType (schema : GraphQLSchema) : option GraphQLNamedType :=
  n ← queryTypeName schema; getType schema n.

(** ** Type introspection helpers *)

Definition isObjectType (type : option GraphQLNamedType) : bool :=
  match type with
  | Some t => match kind t with OBJECT => true | _ => false end
  | None => false
  end.

Definition isInterfaceType (type : option GraphQLNamedType) : bool :=
  match type with
  | Some t => match kind t with INTERFACE => true | _ => false end
  | None => false
  end.

(** [isTypeWithFields]: [type instanceof GraphQLObjectType ||
    type instanceof GraphQLInterfaceType], on a possibly undefined type. *)
Definition isTypeWithFields (type : option GraphQLNamedType) : bool :=
  isObjectType type || isInterfaceType type.

(** [isListType]: look through non-null wrappers, then test for a list. *)
Fixpoint isListType (type : GraphQLOutputType) : bool :=
  match type with
  | GraphQLNonNull t => isListType t
  | GraphQLList _ => true
  | Named _ => false
  end.

(** [getNamedType]: strip every list and non-null wrapper.  The result
    identifies the named type object by its name: [buildClientSchema]
    resolves every type reference through the type map, so the object at
    a leaf is the one [schema.getType] returns for that name, and its
    [.name] is that name. *)
Fixpoint getNamedType (type : GraphQLOutputType) : string :=
  match type with
  | GraphQLNonNull t | GraphQLList t => getNamedType t
  | Named n => n
  end.

(** The [.ofType] property, present on the two wrapper classes only. *)
Definition ofType (type : GraphQLOutputType) : option GraphQLOutputType :=
  match type with
  | GraphQLNonNull t | GraphQLList t => Some t
  | Named _ => None
  end.

(** ** Query documents *)

Inductive SelectionNode : Type :=
  | Field (fieldName : string) (selectionSet : option (list SelectionNode))
  | FragmentSpread (spreadName : string)
  | InlineFragment (typeCondition : option string)
                   (selectionSet : list SelectionNode).

Record FragmentDefinitionNode : Type := {
  fragmentName : string;
  fragmentTypeCondition : string;
  fragmentSelections : list SelectionNode
}.

Inductive OperationTypeNode : Type := QUERY | MUTATION | SUBSCRIPTION.

Inductive DefinitionNode : Type :=
  | OperationDefinition (operation : OperationTypeNode)
                        (selectionSet : list SelectionNode)
  | FragmentDefinition (fragment : FragmentDefinitionNode)
  | TypeSystemDefinition.

(** [selectionSet?.selections || []]. *)
Definition selections (selectionSet : option (list SelectionNode))
  : list SelectionNode :=
  default [] selectionSet.

(** ** Operations and their context *)

(** Values held by the fields of an operation context. *)
Inductive ContextValue : Type :=
  | CString (s : string)
  | CBool (b : bool)
  | CNumber (n : Z)
  | CStrings (l : list string).

Record Operation : Type := {
  query : list DefinitionNode;
  context : gmap string ContextValue
}.

(** [operation.context.additionalTypenames]: a [string[]], or absent. *)
Definition context_additionalTypenames (ctx : gmap string ContextValue)
  : list string :=
  match ctx !! "additionalTypenames" with
  | Some (CStrings l) => l
  | _ => []
  end.

(** ** The accumulated result: a JavaScript [Set<string>]

    A [Set] iterates in insertion order and [add] of a member is a no-op,
    so the set is the list of its members in insertion order. *)

Definition Set_add (x : string) (s : list string) : list string :=
  if decide (x ∈ s) then s else s ++ [x].

(** [new Set(iterable)]: add the elements one after the other. *)
Definition Set_new (xs : list string) : list string :=
  foldl (λ s x, Set_add x s) [] xs.

(** A [for ... of] loop whose body threads the result set and may exhaust
    the call stack ([None]). *)
Fixpoint forEach {A : Type} (body : A → list string → option (list string))
    (l : list A) (acc : list string) : option (list string) :=
  match l with
  | [] => Some acc
  | x :: l' =>
      match body x acc with
      | Some acc' => forEach body l' acc'
      | None => None
      end
  end.

(** ** class AdditionalTypenamesDetector *)

Section AdditionalTypenamesDetector.
Variable schema : GraphQLSchema.
Variable operation : Operation.

(** The constructor's [new Set(operation.context.additionalTypenames)]. *)
Definition seededTypenames : list string :=
  Set_new (context_additionalTypenames (context operation)).

(** [definitions.filter(d => d.kind === Kind.FRAGMENT_DEFINITION)]. *)
Definition fragmentDefinitions : list FragmentDefinitionNode :=
  omap (λ d, match d with FragmentDefinition f => Some f | _ => None end)
       (query operation).

(** [new Map(entries)] sets the entries in order: a later entry with the
    same key replaces an earlier one. *)
Definition fragmentMap : gmap string FragmentDefinitionNode :=
  foldl (λ m d, <[fragmentName d := d]> m) ∅ fragmentDefinitions.

Definition resolveFragment (fragmentName : string)
  : option FragmentDefinitionNode :=
  fragmentMap !! fragmentName.

(** [addListFieldToAdditionalTypenames], on the field's declared type.
    After the [isListType] guard the type is a wrapper, so [.ofType]
    exists. *)
Definition addListFieldToAdditionalTypenames
    (fieldType : GraphQLOutputType) (additionalTypenames : list string)
  : list string :=
  if negb (isListType fieldType) then additionalTypenames
  else match ofType fieldType with
       | Some inner => Set_add (getNamedType inner) additionalTypenames
       | None => additionalTypenames
       end.

Section Methods.
(** The mutually recursive methods all recurse through
    [exploreSelections]; [explore] stands for that call. *)
Variable explore :
  SelectionNode → option GraphQLNamedType → bool →
  list string → option (list string).

Definition exploreField (fieldName : string)
    (selectionSet : option (list SelectionNode))
    (parentType : option GraphQLNamedType)
    (additionalTypenames : list string) : option (list string) :=
  if negb (isTypeWithFields parentType) then Some additionalTypenames
  else
    match parentType ≫= λ p, getFields p !! fieldName with
    | None => Some additionalTypenames
    | Some field =>
        let fieldType := getType schema (getNamedType field) in
        let recorded :=
          if negb (isInterfaceType fieldType)
          then addListFieldToAdditionalTypenames field additionalTypenames
          else additionalTypenames in
        let fieldIsList := isListType field in
        forEach (λ s, explore s fieldType fieldIsList)
                (selections selectionSet) recorded
    end.

Definition exploreFragmentSpread (spreadName : string) (isList : bool)
    (additionalTypenames : list string) : option (list string) :=
  match resolveFragment spreadName with
  | None => Some additionalTypenames
  | Some foundFragment =>
      let fragmentOnType :=
        getType schema (fragmentTypeCondition foundFragment) in
      if negb (isTypeWithFields fragmentOnType)
      then Some additionalTypenames
      else forEach (λ s, explore s fragmentOnType isList)
                   (fragmentSelections foundFragment)
                   additionalTypenames
  end.

Definition exploreInlineFragment (typeCondition : option string)
    (selectionSet : list SelectionNode) (isList : bool)
    (additionalTypenames : list string) : option (list string) :=
  match typeCondition with
  | None => Some additionalTypenames
  | Some condition =>
      match getType schema condition with
      | None => Some additionalTypenames
      | Some fieldType =>
          if negb (isTypeWithFields (Some fieldType))
          then Some additionalTypenames
          else
            let recorded :=
              if isList then Set_add (name fieldType) additionalTypenames
              else additionalTypenames in
            forEach (λ s, explore s (Some fieldType) false)
                    selectionSet recorded
      end
  end.

(** The [switch] of [exploreSelections]. *)
Definition dispatch (selectionNode : SelectionNode)
    (parentType : option GraphQLNamedType) (isList : bool)
    (additionalTypenames : list string) : option (list string) :=
  match selectionNode with
  | Field fieldName selectionSet =>
      exploreField fieldName selectionSet parentType additionalTypenames
  | FragmentSpread spreadName =>
      exploreFragmentSpread spreadName isList additionalTypenames
  | InlineFragment typeCondition selectionSet =>
      exploreInlineFragment typeCondition selectionSet isList
                            additionalTypenames
  end.
End Methods.

(** [exploreSelections], with the depth of the call stack bounded by
    [depth]: a fragment that spreads itself recurses without end, which
    exhausts the stack ([None]). *)
Fixpoint exploreSelections (depth : nat) (selectionNode : SelectionNode)
    (parentType : option GraphQLNamedType) (isList : bool)
    (additionalTypenames : list string) : option (list string) :=
  match depth with
  | 0 => None
  | S depth' =>
      dispatch (exploreSelections depth') selectionNode parentType isList
               additionalTypenames
  end.

(** [getAdditionalTypenames]. *)
Definition getAdditionalTypenames (depth : nat) : option (list string) :=
  match getQueryType schema with
  | None => Some []
  | Some queryType =>
      forEach
        (λ definition acc,
           match definition with
           | OperationDefinition _ selectionSet =>
               forEach (λ s, exploreSelections depth s (Some queryType) false)
                       selectionSet acc
           | _ => Some acc
           end)
        (query operation) seededTypenames
  end.
End AdditionalTypenamesDetector.

(** ** The exchange stage *)

(** What [console.info] is handed when [debug] is set. *)
Record DebugRecord : Type := {
  debug_operation : Operation;
  debug_additionalTypenames : list string
}.

(** The options, after [buildClientSchema] has turned the serialized
    schema into a schema object. *)
Record ExhaustiveAdditionalTypenamesExchangeOptions : Type := {
  opt_schema : GraphQLSchema;
  opt_debug : option bool
}.

(** [getContext]: the new context, and what was written to the console. *)
Definition getContext (options : ExhaustiveAdditionalTypenamesExchangeOptions)
    (depth : nat) (operation : Operation)
  : option (gmap string ContextValue * list DebugRecord) :=
  additionalTypenames ←
    getAdditionalTypenames (opt_schema options) operation depth;
  let console :=
    if default false (opt_debug options)
    then [ {| debug_operation := operation;
              debug_additionalTypenames := additionalTypenames |} ]
    else [] in
  Some (<["additionalTypenames" := CStrings additionalTypenames]>
          (context operation), console).

(** ** The schema and the queries of the repository's test suite *)

Module TestSuite.
Definition nonNullList (n : string) : GraphQLOutputType :=
  GraphQLNonNull (GraphQLList (GraphQLNonNull (Named n))).

Definition scalar : TypeDefinition :=
  {| def_kind := SCALAR; def_fields := ∅ |}.

Definition typeWith (k : TypeKind)
    (fs : list (string * GraphQLOutputType)) : TypeDefinition :=
  {| def_kind := k;
     def_fields := foldl (λ m f, <[f.1 := f.2]> m) ∅ fs |}.

Definition sdl : GraphQLSchema :=
  {| queryTypeName := Some "Query";
     typeMap :=
       foldl (λ m d, <[d.1 := d.2]> m) ∅
         [ ("ID", scalar); ("String", scalar); ("Int", scalar);
           ("Boolean", scalar);
           ("Node", typeWith INTERFACE [("id", GraphQLNonNull (Named "ID"))]);
           ("Post", typeWith OBJECT
              [("id", GraphQLNonNull (Named "ID"));
               ("title", GraphQLNonNull (Named "String"));
               ("body", GraphQLNonNull (Named "String"));
               ("comments", nonNullList "Comment")]);
           ("User", typeWith OBJECT
              [("id", GraphQLNonNull (Named "ID"));
               ("name", GraphQLNonNull (Named "String"));
               ("posts", nonNullList "Post")]);
           ("UserEdge", typeWith OBJECT
              [("cursor", GraphQLNonNull (Named "String"));
               ("node", Named "User")]);
           ("UserConnection", typeWith OBJECT
              [("edges", nonNullList "UserEdge");
               ("nodes", nonNullList "User");
               ("pageInfo", GraphQLNonNull (Named "PageInfo"));
               ("totalCount", GraphQLNonNull (Named "Int"))]);
           ("PageInfo", typeWith OBJECT
              [("endCursor", Named "String");
               ("hasNextPage", GraphQLNonNull (Named "Boolean"));
               ("hasPreviousPage", GraphQLNonNull (Named "Boolean"));
               ("startCursor", Named "String")]);
           ("Comment", typeWith INTERFACE
              [("body", GraphQLNonNull (Named "String"));
               ("likedBy", nonNullList "User")]);
           ("PostComment", typeWith OBJECT
              [("id", GraphQLNonNull (Named "ID"));
               ("title", GraphQLNonNull (Named "String"));
               ("body", GraphQLNonNull (Named "String"));
               ("likedBy", nonNullList "User")]);
           ("Query", typeWith OBJECT
              [("nodes", nonNullList "Node");
               ("node", Named "Node");
               ("users", nonNullList "User");
               ("nullableUsers", GraphQLList (Named "User"));
               ("userConnection", GraphQLNonNull (Named "UserConnection"))])
         ] |}.

(** The same type map without a root query type. *)
Definition sdlWithoutQuery : GraphQLSchema :=
  {| queryTypeName := None; typeMap := typeMap sdl |}.

Definition leaf (n : string) : SelectionNode := Field n None.
Definition node (n : string) (ss : list SelectionNode) : SelectionNode :=
  Field n (Some ss).
Definition on (n : string) (ss : list SelectionNode) : SelectionNode :=
  InlineFragment (Some n) ss.
Definition fragment (n c : string) (ss : list SelectionNode)
  : DefinitionNode :=
  FragmentDefinition
    {| fragmentName := n; fragmentTypeCondition := c;
       fragmentSelections := ss |}.

Definition request (ds : list DefinitionNode) : Operation :=
  {| query := ds; context := {[ "url" := CString "http://localhost:8000/graphql" ]} |}.

Definition requestWith (hints : list string) (ds : list DefinitionNode)
  : Operation :=
  {| query := ds;
     context := <["additionalTypenames" := CStrings hints]>
                  {[ "url" := CString "http://localhost:8000/graphql" ]} |}.

(** [{ users { id name } }] *)
Definition usersQuery : list DefinitionNode :=
  [ OperationDefinition QUERY [ node "users" [leaf "id"; leaf "name"] ] ].

(** [{ users { id posts { id title } } }] *)
Definition nestedQuery : list DefinitionNode :=
  [ OperationDefinition QUERY
      [ node "users" [leaf "id"; node "posts" [leaf "id"; leaf "title"]] ] ].

(** [{ nodes { ...on User { name } ...on Post { body } } }] *)
Definition nodesQuery : list DefinitionNode :=
  [ OperationDefinition QUERY
      [ node "nodes" [ on "User" [leaf "name"]; on "Post" [leaf "body"] ] ] ].

(** [{ nullableUsers { name posts { title } } users { name } }] *)
Definition siblingsQuery : list DefinitionNode :=
  [ OperationDefinition QUERY
      [ node "nullableUsers" [leaf "name"; node "posts" [leaf "title"]];
        node "users" [leaf "name"] ] ].

(** [fragment NodeFragment on Node { ...on User { name } ...on Post { body } }
     { nodes { ...NodeFragment } }] *)
Definition nodeFragmentQuery : list DefinitionNode :=
  [ fragment "NodeFragment" "Node"
      [ on "User" [leaf "name"]; on "Post" [leaf "body"] ];
    OperationDefinition QUERY
      [ node "nodes" [ FragmentSpread "NodeFragment" ] ] ].

(** [fragment UserFragment on User { name }
     { nodes { ...UserFragment } }] *)
Definition userSpreadQuery : list DefinitionNode :=
  [ fragment "UserFragment" "User" [leaf "name"];
    OperationDefinition QUERY
      [ node "nodes" [ FragmentSpread "UserFragment" ] ] ].

(** [{ nodes { ...on Node { id } } }] *)
Definition onInterfaceQuery : list DefinitionNode :=
  [ OperationDefinition QUERY
      [ node "nodes" [ on "Node" [leaf "id"] ] ] ].

(** A document that defines [F] twice. *)
Definition duplicateFragmentQuery : list DefinitionNode :=
  [ fragment "F" "User" [leaf "name"];
    fragment "F" "User" [node "posts" [leaf "title"]];
    OperationDefinition QUERY [ node "users" [ FragmentSpread "F" ] ] ].

(** [fragment Loop on User { ...Loop }  { users { ...Loop } }] *)
Definition loopQuery : list DefinitionNode :=
  [ fragment "Loop" "User" [ FragmentSpread "Loop" ];
    OperationDefinition QUERY [ node "users" [ FragmentSpread "Loop" ] ] ].
End TestSuite.

(** ** The traversal as a call graph

    [Calls x y]: exploring [x] (a selection, its parent type and the
    is-list flag it is explored with) makes a recursive call on [y]. *)

Definition Call : Type := SelectionNode * option GraphQLNamedType * bool.

Inductive Calls (schema : GraphQLSchema) (operation : Operation)
  : Call → Call → Prop :=
  | Calls_field fieldName selectionSet parentType isList field s :
      isTypeWithFields (Some parentType) = true →
      getFields parentType !! fieldName = Some field →
      s ∈ selections selectionSet →
      Calls schema operation
        (Field fieldName selectionSet, Some parentType, isList)
        (s, getType schema (getNamedType field), isListType field)
  | Calls_spread spreadName parentType isList foundFragment fragmentOnType s :
      resolveFragment operation spreadName = Some foundFragment →
      getType schema (fragmentTypeCondition foundFragment)
        = Some fragmentOnType →
      isTypeWithFields (Some fragmentOnType) = true →
      s ∈ fragmentSelections foundFragment →
      Calls schema operation
        (FragmentSpread spreadName, parentType, isList)
        (s, Some fragmentOnType, isList)
  | Calls_inline condition selectionSet parentType isList fieldType s :
      getType schema condition = Some fieldType →
      isTypeWithFields (Some fieldType) = true →
      s ∈ selectionSet →
      Calls schema operation
        (InlineFragment (Some condition) selectionSet, parentType, isList)
        (s, Some fieldType, false).

(** The calls a detection makes: the root selections of every operation
    definition, against the root query type with the flag off, and
    whatever those call. *)
Inductive Visited (schema : GraphQLSchema) (operation : Operation)
  : Call → Prop :=
  | Visited_root queryType kind selectionSet s :
      getQueryType schema = Some queryType →
      OperationDefinition kind selectionSet ∈ query operation →
      s ∈ selectionSet →
      Visited schema operation (s, Some queryType, false)
  | Visited_call x y :
      Visited schema operation x →
      Calls schema operation x y →
      Visited schema operation y.


(** The calls of a detection never form an infinite chain: no fragment
    spreads itself, directly or through other fragments, along a path the
    walk follows. *)
Definition terminating (schema : GraphQLSchema) (operation : Operation)
  : Prop :=
  ∀ x, Visited schema operation x → Acc (flip (Calls schema operation)) x.

(** [grows acc r]: [r] is [acc] with names appended at the end, and has no
    repetition when [acc] has none.  This is all a traversal step may do
    to the result set. *)
Definition grows (acc r : list string) : Prop :=
  acc `prefix_of` r ∧ (NoDup acc → NoDup r).

(** The fragment names spread anywhere inside a selection. *)
Fixpoint spreadNames (selectionNode : SelectionNode) : list string :=
  match selectionNode with
  | Field _ selectionSet =>
      match selectionSet with
      | Some l => concat (map spreadNames l)
      | None => []
      end
  | FragmentSpread spreadName => [spreadName]
  | InlineFragment _ l => concat (map spreadNames l)
  end.

(** The number of nodes of a selection. *)
Fixpoint selectionSize (selectionNode : SelectionNode) : nat :=
  match selectionNode with
  | Field _ selectionSet =>
      match selectionSet with
      | Some l => S (list_sum (map selectionSize l))
      | None => 1
      end
  | FragmentSpread _ => 1
  | InlineFragment _ l => S (list_sum (map selectionSize l))
  end.

(** The fragments of a document are stratified by [rank] when every
    fragment only spreads fragments of a smaller rank: no fragment
    spreads itself, directly or indirectly (what GraphQL validation
    requires of a document). *)
Definition stratified (operation : Operation) (rank : string → nat) : Prop :=
  ∀ fragmentName foundFragment spreadName s,
    resolveFragment operation fragmentName = Some foundFragment →
    s ∈ fragmentSelections foundFragment →
    spreadName ∈ spreadNames s →
    (rank spreadName < rank fragmentName)%nat.

(** ** The claims' vocabulary *)

(** Unwrap non-null wrappers until something else is on top. *)
Fixpoint unwrapNonNull (type : GraphQLOutputType) : GraphQLOutputType :=
  match type with
  | GraphQLNonNull t => unwrapNonNull t
  | _ => type
  end.

(** A selection whose reference cannot be followed: a field on a parent
    without selectable fields, a field name the parent does not have, a
    spread of an unknown fragment, or a fragment or inline fragment whose
    type condition names a missing type or one without fields. *)
Definition malformedReference (schema : GraphQLSchema) (operation : Operation)
    (selectionNode : SelectionNode) (parentType : option GraphQLNamedType)
  : bool :=
  match selectionNode with
  | Field fieldName _ =>
      negb (isTypeWithFields parentType)
      || bool_decide ((parentType ≫= λ p, getFields p !! fieldName) = None)
  | FragmentSpread spreadName =>
      match resolveFragment operation spreadName with
      | None => true
      | Some foundFragment =>
          negb (isTypeWithFields
                  (getType schema (fragmentTypeCondition foundFragment)))
      end
  | InlineFragment (Some condition) _ =>
      negb (isTypeWithFields (getType schema condition))
  | InlineFragment None _ => false
  end.

(** A callback that fails whenever it is called: a method that returns
    under it made no recursive call. *)
Definition neverCalled : SelectionNode → option GraphQLNamedType → bool →
                         list string → option (list string) :=
  λ _ _ _ _, None.

(** [fragment Outer on User { ...Inner }
     fragment Inner on User { posts { title } }
     { users { ...Outer } }] *)
Definition nestedSpreadQuery : list DefinitionNode :=
  [ TestSuite.fragment "Outer" "User" [ FragmentSpread "Inner" ];
    TestSuite.fragment "Inner" "User"
      [ TestSuite.node "posts" [ TestSuite.leaf "title" ] ];
    OperationDefinition QUERY
      [ TestSuite.node "users" [ FragmentSpread "Outer" ] ] ].

(** ** Vocabulary for the walk as a whole *)

(** [set.add] of a sequence of names, one after the other. *)
Definition addAll (names acc : list string) : list string :=
  foldl (λ s x, Set_add x s) acc names.

(** A step is oblivious when, whatever set it is given, it either adds
    one and the same sequence of names or exhausts the stack. *)
Definition oblivious (step : list string → option (list string)) : Prop :=
  (∃ names, ∀ acc, step acc = Some (addAll names acc))
  ∨ (∀ acc, step acc = None).

(** The loop of [getAdditionalTypenames] over the definitions, from a
    given set. *)
Definition walkDefinitions (schema : GraphQLSchema) (operation : Operation)
    (depth : nat) (queryType : GraphQLNamedType) (acc : list string)
  : option (list string) :=
  forEach
    (λ definition acc,
       match definition with
       | OperationDefinition _ selectionSet =>
           forEach (λ s, exploreSelections schema operation depth s
                           (Some queryType) false)
                   selectionSet acc
       | _ => Some acc
       end)
    (query operation) acc.

(** The same operation with another context (what a later stage of the
    pipeline receives once the context has been republished). *)
Definition withContext (operation : Operation)
    (ctx : gmap string ContextValue) : Operation :=
  {| query := query operation; context := ctx |}.

(** The same operation with every operation definition declared as a
    [k] (query, mutation or subscription). *)
Definition retag (k : OperationTypeNode) (definition : DefinitionNode)
  : DefinitionNode :=
  match definition with
  | OperationDefinition _ selectionSet => OperationDefinition k selectionSet
  | _ => definition
  end.

Definition withOperationType (k : OperationTypeNode) (operation : Operation)
  : Operation :=
  {| query := map (retag k) (query operation); context := context operation |}.

(** The two places where the walk calls [additionalTypenames.add]:
    a visited field whose declared type is a list and whose named type is
    not an interface (the named type is added), and a visited inline
    fragment, reached with the is-list flag on, whose type condition names
    a type with fields (that type's name is added). *)
Definition Records (schema : GraphQLSchema) (operation : Operation)
    (typeName : string) : Prop :=
  (∃ fieldName selectionSet parentType isList field,
     Visited schema operation
       (Field fieldName selectionSet, Some parentType, isList)
     ∧ isTypeWithFields (Some parentType) = true
     ∧ getFields parentType !! fieldName = Some field
     ∧ isListType field = true
     ∧ isInterfaceType (getType schema (getNamedType field)) = false
     ∧ getNamedType field = typeName)
  ∨ (∃ selectionSet parentType fieldType,
       Visited schema operation
         (InlineFragment (Some typeName) selectionSet, parentType, true)
       ∧ getType schema typeName = Some fieldType
       ∧ isTypeWithFields (Some fieldType) = true).

(** What the caller's hints are to a returned sequence [r]: [r] has no
    repetition, holds every hint, is the seeded set followed by the names
    found, the seeded set being the hints in their order at their first
    occurrence; and [r] begins with the hint list itself when that list
    has no repetition. *)
Definition hintsFirst (operation : Operation) (r : list string) : Prop :=
  NoDup r
  ∧ (∀ hint, hint ∈ context_additionalTypenames (context operation) →
             hint ∈ r)
  ∧ (∃ found, r = seededTypenames operation ++ found)
  ∧ seededTypenames operation
      `sublist_of` context_additionalTypenames (context operation)
  ∧ (NoDup (context_additionalTypenames (context operation)) →
     context_additionalTypenames (context operation) `prefix_of` r).


(** * Properties *)

(** ** The insertion-ordered set *)

Lemma elem_of_Set_add (x y : string) (s : list string) :
  y ∈ Set_add x s ↔ y = x ∨ y ∈ s.
Proof.
  unfold Set_add. case_decide as Hin.
  - split; [by right | intros [-> | ?]; done].
  - rewrite elem_of_app, list_elem_of_singleton. tauto.
Qed.

Lemma Set_add_prefix (x : string) (s : list string) : s `prefix_of` Set_add x s.
Proof.
  unfold Set_add. case_decide; [done | by apply prefix_app_r].
Qed.

Lemma Set_add_NoDup (x : string) (s : list string) :
  NoDup s → NoDup (Set_add x s).
Proof.
  intros Hs. unfold Set_add. case_decide as Hin; [done |].
  apply NoDup_app. split_and!; [done | | apply NoDup_singleton].
  intros y Hy ->%list_elem_of_singleton. done.
Qed.

(** Adding a list of names to a set keeps the set as a prefix and appends
    a subsequence of the names. *)
Lemma foldl_Set_add_shape (xs s : list string) :
  ∃ k, foldl (λ s x, Set_add x s) s xs = s ++ k ∧ k `sublist_of` xs.
Proof.
  revert s. induction xs as [| x xs IH]; intros s; simpl.
  - exists []. by rewrite app_nil_r.
  - destruct (IH (Set_add x s)) as (k & -> & Hk).
    unfold Set_add. case_decide.
    + exists k. split; [done | by apply sublist_cons].
    + exists (x :: k). split; [by rewrite <- app_assoc | by apply sublist_skip].
Qed.

Lemma foldl_Set_add_NoDup (xs s : list string) :
  NoDup s → NoDup (foldl (λ s x, Set_add x s) s xs).
Proof.
  revert s. induction xs as [| x xs IH]; intros s Hs; simpl; [done |].
  by apply IH, Set_add_NoDup.
Qed.

Lemma elem_of_foldl_Set_add (xs s : list string) (y : string) :
  y ∈ foldl (λ s x, Set_add x s) s xs ↔ y ∈ s ∨ y ∈ xs.
Proof.
  revert s. induction xs as [| x xs IH]; intros s; simpl.
  - rewrite elem_of_nil. tauto.
  - rewrite IH, elem_of_Set_add, elem_of_cons. tauto.
Qed.

Lemma Set_new_NoDup (xs : list string) : NoDup (Set_new xs).
Proof. apply foldl_Set_add_NoDup, NoDup_nil_2. Qed.

Lemma elem_of_Set_new (xs : list string) (y : string) :
  y ∈ Set_new xs ↔ y ∈ xs.
Proof.
  unfold Set_new. rewrite elem_of_foldl_Set_add, elem_of_nil. tauto.
Qed.

Lemma Set_new_sublist (xs : list string) : Set_new xs `sublist_of` xs.
Proof.
  unfold Set_new. by destruct (foldl_Set_add_shape xs []) as (k & -> & Hk).
Qed.

Lemma foldl_Set_add_fresh (xs s : list string) :
  NoDup (s ++ xs) → foldl (λ s x, Set_add x s) s xs = s ++ xs.
Proof.
  revert s. induction xs as [| x xs IH]; intros s Hnd; simpl.
  - by rewrite app_nil_r.
  - assert (x ∉ s) as Hx.
    { apply NoDup_app in Hnd as (_ & Hdisj & _).
      intros Hin. apply (Hdisj x Hin). left. }
    unfold Set_add at 2. rewrite decide_False by done.
    rewrite IH; rewrite <- app_assoc; done.
Qed.

(** A seed without repetitions is kept as it is. *)
Lemma Set_new_id (xs : list string) : NoDup xs → Set_new xs = xs.
Proof. intros Hnd. by apply (foldl_Set_add_fresh xs []). Qed.

(** ** What a traversal step may do to the result set *)

Lemma grows_refl (acc : list string) : grows acc acc.
Proof. by split. Qed.

Lemma grows_trans (a b c : list string) : grows a b → grows b c → grows a c.
Proof.
  intros [Hab Hnab] [Hbc Hnbc]. split; [by etrans | auto].
Qed.

Lemma grows_Set_add (x : string) (acc : list string) : grows acc (Set_add x acc).
Proof. split; [apply Set_add_prefix | apply Set_add_NoDup]. Qed.

Lemma grows_elem_of (acc r : list string) (x : string) :
  grows acc r → x ∈ acc → x ∈ r.
Proof. intros [[k ->] _] Hx. apply elem_of_app. by left. Qed.

(** ** Loops *)

Lemma forEach_app {A} (body : A → list string → option (list string))
    (l1 l2 : list A) (acc : list string) :
  forEach body (l1 ++ l2) acc = forEach body l1 acc ≫= forEach body l2.
Proof.
  revert acc. induction l1 as [| x l1 IH]; intros acc; simpl; [done |].
  destruct (body x acc); simpl; [apply IH | done].
Qed.

Lemma forEach_grows {A} (body : A → list string → option (list string))
    (l : list A) (acc r : list string) :
  (∀ x a a', x ∈ l → body x a = Some a' → grows a a') →
  forEach body l acc = Some r → grows acc r.
Proof.
  revert acc. induction l as [| x l IH]; intros acc Hbody Hr; simpl in Hr.
  - injection Hr as <-. apply grows_refl.
  - destruct (body x acc) as [acc' |] eqn:Hx; [| done].
    eapply grows_trans.
    + eapply Hbody; [left | done].
    + apply IH; [| done]. intros y a a' Hy. apply Hbody. by right.
Qed.

(** An element of the list is handled by the body at some intermediate
    set between the initial and the final one. *)
Lemma forEach_elem {A} (body : A → list string → option (list string))
    (l : list A) (acc r : list string) (x : A) :
  (∀ y a a', y ∈ l → body y a = Some a' → grows a a') →
  forEach body l acc = Some r → x ∈ l →
  ∃ a a', body x a = Some a' ∧ grows acc a ∧ grows a' r.
Proof.
  intros Hbody Hr Hx.
  apply list_elem_of_split in Hx as (l1 & l2 & ->).
  rewrite forEach_app in Hr.
  destruct (forEach body l1 acc) as [a |] eqn:H1; [simpl in Hr | done].
  destruct (body x a) as [a' |] eqn:Hxa; [| done].
  exists a, a'. split_and!; [done | |].
  - eapply forEach_grows; [| done].
    intros y b b' Hy. apply Hbody. apply elem_of_app. by left.
  - eapply forEach_grows; [| done].
    intros y b b' Hy. apply Hbody. apply elem_of_app. right. by right.
Qed.

Lemma forEach_is_Some {A} (body : A → list string → option (list string))
    (l : list A) (acc : list string) :
  (∀ x a, x ∈ l → is_Some (body x a)) → is_Some (forEach body l acc).
Proof.
  revert acc. induction l as [| x l IH]; intros acc Hbody; simpl; [done |].
  destruct (Hbody x acc) as [a' ->]; [left |].
  apply IH. intros y a Hy. apply Hbody. by right.
Qed.

Lemma forEach_mono {A} (f g : A → list string → option (list string))
    (l : list A) (acc r : list string) :
  (∀ x a a', x ∈ l → f x a = Some a' → g x a = Some a') →
  forEach f l acc = Some r → forEach g l acc = Some r.
Proof.
  revert acc. induction l as [| x l IH]; intros acc Hfg Hr; simpl in *; [done |].
  destruct (f x acc) as [a' |] eqn:Hx; [| done].
  rewrite (Hfg x acc a') by (done || left).
  apply IH; [| done]. intros y a b Hy. apply Hfg. by right.
Qed.

(** ** Type helpers *)

Lemma isListType_unwrapNonNull (type : GraphQLOutputType) :
  isListType type = true ↔ ∃ element, unwrapNonNull type = GraphQLList element.
Proof.
  induction type as [n | t IH | t IH]; simpl.
  - split; [done | by intros [? ?]].
  - split; [by exists t | done].
  - done.
Qed.

Lemma isListType_ofType (type : GraphQLOutputType) :
  isListType type = true → is_Some (ofType type).
Proof. destruct type; simpl; [done | eauto | eauto]. Qed.

(** Under the [isListType] guard the recorded name is the field's own
    named type. *)
Lemma getNamedType_ofType (type inner : GraphQLOutputType) :
  ofType type = Some inner → getNamedType inner = getNamedType type.
Proof. destruct type; simpl; [done | by intros [= ->] | by intros [= ->]]. Qed.

Lemma getType_name (schema : GraphQLSchema) (n : string) (t : GraphQLNamedType) :
  getType schema n = Some t → name t = n.
Proof.
  unfold getType. destruct (typeMap schema !! n); simpl; [| done].
  by intros [= <-].
Qed.

Lemma isTypeWithFields_Some (type : option GraphQLNamedType) :
  isTypeWithFields type = true → is_Some type.
Proof. destruct type; [eauto | done]. Qed.

(** ** The walker *)

Section Walker.
Context (schema : GraphQLSchema) (operation : Operation).

Lemma addListField_grows (field : GraphQLOutputType) (acc : list string) :
  grows acc (addListFieldToAdditionalTypenames field acc).
Proof.
  unfold addListFieldToAdditionalTypenames.
  destruct (negb (isListType field)); [apply grows_refl |].
  destruct (ofType field); [apply grows_Set_add | apply grows_refl].
Qed.

Lemma addListField_list (field : GraphQLOutputType) (acc : list string) :
  isListType field = true →
  addListFieldToAdditionalTypenames field acc
    = Set_add (getNamedType field) acc.
Proof.
  intros Hl. unfold addListFieldToAdditionalTypenames. rewrite Hl. simpl.
  destruct (isListType_ofType field Hl) as [inner Hin].
  by rewrite Hin, (getNamedType_ofType field inner).
Qed.

Section Step.
Context (explore : SelectionNode → option GraphQLNamedType → bool →
                   list string → option (list string)).
Context (explore_grows :
  ∀ s p b a a', explore s p b a = Some a' → grows a a').

Lemma dispatch_grows sel p b acc r :
  dispatch schema operation explore sel p b acc = Some r → grows acc r.
Proof using explore_grows.
  destruct sel as [f ss | n | c ss]; simpl.
  - unfold exploreField.
    destruct (negb (isTypeWithFields p)); [intros [= <-]; apply grows_refl |].
    destruct (p ≫= _) as [field |]; [| intros [= <-]; apply grows_refl].
    intros Hr. apply forEach_grows in Hr; [| by eauto].
    eapply grows_trans; [| done].
    destruct (negb _); [apply addListField_grows | apply grows_refl].
  - unfold exploreFragmentSpread.
    destruct (resolveFragment operation n) as [fd |];
      [| intros [= <-]; apply grows_refl].
    destruct (negb _); [intros [= <-]; apply grows_refl |].
    intros Hr. apply forEach_grows in Hr; by eauto.
  - unfold exploreInlineFragment.
    destruct c as [c |]; [| intros [= <-]; apply grows_refl].
    destruct (getType schema c) as [t |]; [| intros [= <-]; apply grows_refl].
    destruct (negb _); [intros [= <-]; apply grows_refl |].
    intros Hr. apply forEach_grows in Hr; [| by eauto].
    eapply grows_trans; [| done].
    destruct b; [apply grows_Set_add | apply grows_refl].
Qed.
End Step.

Lemma exploreSelections_grows depth sel p b acc r :
  exploreSelections schema operation depth sel p b acc = Some r →
  grows acc r.
Proof.
  revert sel p b acc r. induction depth as [| depth IH]; intros sel p b acc r;
    simpl; [done |].
  by apply dispatch_grows.
Qed.

(** The methods on two callbacks, the second returning whatever the
    first returns. *)
Lemma dispatch_mono explore1 explore2 sel p b acc r :
  (∀ s p b a a', explore1 s p b a = Some a' → explore2 s p b a = Some a') →
  dispatch schema operation explore1 sel p b acc = Some r →
  dispatch schema operation explore2 sel p b acc = Some r.
Proof.
  intros H12. destruct sel as [f ss | n | c ss]; simpl.
  - unfold exploreField. destruct (negb _); [done |].
    destruct (p ≫= _); [| done]. apply forEach_mono. eauto.
  - unfold exploreFragmentSpread. destruct (resolveFragment _ _); [| done].
    destruct (negb _); [done |]. apply forEach_mono. eauto.
  - unfold exploreInlineFragment. destruct c; [| done].
    destruct (getType _ _); [| done]. destruct (negb _); [done |].
    apply forEach_mono. eauto.
Qed.

(** A deeper stack returns the same result. *)
Lemma exploreSelections_deeper (depth depth' : nat) sel p b acc r :
  (depth ≤ depth')%nat →
  exploreSelections schema operation depth sel p b acc = Some r →
  exploreSelections schema operation depth' sel p b acc = Some r.
Proof.
  revert depth' sel p b acc r.
  induction depth as [| depth IH]; intros depth' sel p b acc r Hle; simpl;
    [done |].
  destruct depth' as [| depth']; [lia |]. simpl.
  apply dispatch_mono. intros s q c a a'. apply IH. lia.
Qed.

(** Every call of the call graph is made. *)
Lemma Calls_explored depth x y acc r :
  Calls schema operation x y →
  exploreSelections schema operation (S depth) x.1.1 x.1.2 x.2 acc = Some r →
  ∃ a a', exploreSelections schema operation depth y.1.1 y.1.2 y.2 a = Some a'
          ∧ grows acc a ∧ grows a' r.
Proof.
  intros Hcall.
  destruct Hcall as [f ss p b field s Hp Hf Hs
                    | n p b fd t s Hfd Ht Htf Hs
                    | c ss p b t s Ht Htf Hs]; simpl.
  - unfold exploreField. rewrite Hp. simpl. rewrite Hf. intros Hr.
    eapply forEach_elem in Hr as (a & a' & Ha & Hga & Hgr);
      [| by eauto using exploreSelections_grows | done].
    exists a, a'. split_and!; [done | | done].
    eapply grows_trans; [| done].
    destruct (negb _); [apply addListField_grows | apply grows_refl].
  - unfold exploreFragmentSpread. rewrite Hfd, Ht, Htf. simpl. intros Hr.
    eapply forEach_elem in Hr as (a & a' & Ha & Hga & Hgr);
      [| by eauto using exploreSelections_grows | done].
    by exists a, a'.
  - unfold exploreInlineFragment. rewrite Ht, Htf. simpl. intros Hr.
    eapply forEach_elem in Hr as (a & a' & Ha & Hga & Hgr);
      [| by eauto using exploreSelections_grows | done].
    exists a, a'. split_and!; [done | | done].
    eapply grows_trans; [| done].
    destruct b; [apply grows_Set_add | apply grows_refl].
Qed.

Lemma getAdditionalTypenames_grows depth queryType r :
  getQueryType schema = Some queryType →
  getAdditionalTypenames schema operation depth = Some r →
  grows (seededTypenames operation) r.
Proof.
  unfold getAdditionalTypenames. intros ->. apply forEach_grows.
  intros d a a' _. destruct d as [k ss | fd |]; try (intros [= <-]; apply grows_refl).
  apply forEach_grows. eauto using exploreSelections_grows.
Qed.

(** Every visited call is explored, and what it returns is kept in the
    final result. *)
Lemma Visited_explored depth r x :
  getAdditionalTypenames schema operation depth = Some r →
  Visited schema operation x →
  ∃ d a a', exploreSelections schema operation d x.1.1 x.1.2 x.2 a = Some a'
            ∧ grows a' r.
Proof.
  intros Hr Hv. induction Hv as [q k ss s Hq Hdef Hs | x y Hv IH Hcall].
  - unfold getAdditionalTypenames in Hr. rewrite Hq in Hr.
    eapply forEach_elem in Hr as (a & a' & Ha & _ & Hgr); [| | exact Hdef].
    + simpl in Ha.
      eapply forEach_elem in Ha as (b & b' & Hb & _ & Hgb);
        [| by eauto using exploreSelections_grows | exact Hs].
      exists depth, b, b'. split; [done | by eapply grows_trans].
    + intros d b b' _. destruct d; try (intros [= <-]; apply grows_refl).
      apply forEach_grows. eauto using exploreSelections_grows.
  - destruct IH as (d & a & a' & Ha & Hgr).
    destruct d as [| d]; [done |].
    destruct (Calls_explored d x y a a' Hcall Ha) as (b & b' & Hb & _ & Hgb).
    exists d, b, b'. split; [done | by eapply grows_trans].
Qed.

(** ** Termination: a well-founded call graph is explored within a
    bounded stack *)

Lemma bounded_calls (l : list SelectionNode) p b :
  (∀ s, s ∈ l →
     ∃ n : nat, ∀ (m : nat) a, (n ≤ m)%nat →
       is_Some (exploreSelections schema operation m s p b a)) →
  ∃ n : nat, ∀ (m : nat) s a, (n ≤ m)%nat → s ∈ l →
    is_Some (exploreSelections schema operation m s p b a).
Proof.
  induction l as [| s l IH]; intros Hl.
  - exists 0. intros m s a _ Hs. by apply elem_of_nil in Hs.
  - destruct (Hl s) as [n1 H1]; [left |].
    destruct IH as [n2 H2]; [intros s' Hs'; apply Hl; by right |].
    exists (n1 `max` n2). intros m s' a Hm [-> | Hs']%elem_of_cons.
    + apply H1. lia.
    + apply H2; [lia | done].
Qed.

Lemma exploreSelections_terminates (x : Call) :
  Acc (flip (Calls schema operation)) x →
  ∃ n : nat, ∀ (m : nat) a, (n ≤ m)%nat →
    is_Some (exploreSelections schema operation m x.1.1 x.1.2 x.2 a).
Proof.
  induction 1 as [[[sel p] b] _ IH]. simpl in *.
  assert (∀ (l : list SelectionNode) p' b',
    (∀ s, s ∈ l → Calls schema operation (sel, p, b) (s, p', b')) →
    ∃ n : nat, ∀ (m : nat) s a, (n ≤ m)%nat → s ∈ l →
      is_Some (exploreSelections schema operation m s p' b' a)) as Hloop.
  { intros l p' b' Hl. apply bounded_calls. intros s Hs.
    apply (IH (s, p', b')). by apply Hl. }
  destruct sel as [f ss | n | c ss].
  - destruct (isTypeWithFields p) eqn:Hp; cycle 1.
    { exists 1. intros [| m] a Hm; [lia |]. simpl. unfold exploreField.
      rewrite Hp. simpl. eauto. }
    destruct p as [p |]; [| done].
    destruct (getFields p !! f) as [field |] eqn:Hf; cycle 1.
    { exists 1. intros [| m] a Hm; [lia |]. simpl. unfold exploreField.
      rewrite Hp. simpl. rewrite Hf. eauto. }
    destruct (Hloop (selections ss) (getType schema (getNamedType field))
                    (isListType field)) as [n Hn].
    { intros s Hs. by apply Calls_field. }
    exists (S n). intros [| m] a Hm; [lia |]. simpl. unfold exploreField.
    rewrite Hp. simpl. rewrite Hf. apply forEach_is_Some.
    intros s a' Hs. apply Hn; [lia | done].
  - destruct (resolveFragment operation n) as [fd |] eqn:Hfd; cycle 1.
    { exists 1. intros [| m] a Hm; [lia |]. simpl.
      unfold exploreFragmentSpread. rewrite Hfd. eauto. }
    destruct (isTypeWithFields (getType schema (fragmentTypeCondition fd)))
      eqn:Htf; cycle 1.
    { exists 1. intros [| m] a Hm; [lia |]. simpl.
      unfold exploreFragmentSpread. rewrite Hfd, Htf. simpl. eauto. }
    destruct (isTypeWithFields_Some _ Htf) as [t Ht].
    destruct (Hloop (fragmentSelections fd) (Some t) b) as [k Hk].
    { intros s Hs. eapply Calls_spread; [done | done | by rewrite <- Ht | done]. }
    exists (S k). intros [| m] a Hm; [lia |]. simpl.
    unfold exploreFragmentSpread. rewrite Hfd, Htf, Ht. simpl.
    apply forEach_is_Some. intros s a' Hs. apply Hk; [lia | done].
  - destruct c as [c |]; cycle 1.
    { exists 1. intros [| m] a Hm; [lia |]. simpl. eauto. }
    destruct (getType schema c) as [t |] eqn:Ht; cycle 1.
    { exists 1. intros [| m] a Hm; [lia |]. simpl.
      unfold exploreInlineFragment. rewrite Ht. eauto. }
    destruct (isTypeWithFields (Some t)) eqn:Htf; cycle 1.
    { exists 1. intros [| m] a Hm; [lia |]. simpl.
      unfold exploreInlineFragment. rewrite Ht, Htf. simpl. eauto. }
    destruct (Hloop ss (Some t) false) as [k Hk].
    { intros s Hs. by eapply Calls_inline. }
    exists (S k). intros [| m] a Hm; [lia |]. simpl.
    unfold exploreInlineFragment. rewrite Ht, Htf. simpl.
    apply forEach_is_Some. intros s a' Hs. apply Hk; [lia | done].
Qed.

(** Conversely, a call that returns has a well-founded call graph. *)
Lemma explored_Acc depth (x : Call) acc r :
  exploreSelections schema operation depth x.1.1 x.1.2 x.2 acc = Some r →
  Acc (flip (Calls schema operation)) x.
Proof.
  revert x acc r. induction depth as [| depth IH]; intros x acc r Hr;
    [done |].
  constructor. intros y Hcall. unfold flip in Hcall.
  destruct (Calls_explored depth x y acc r Hcall Hr) as (a & a' & Ha & _).
  by eapply IH.
Qed.
End Walker.

(** ** Detection as a whole *)

Lemma getAdditionalTypenames_deeper schema operation (depth depth' : nat) r :
  (depth ≤ depth')%nat →
  getAdditionalTypenames schema operation depth = Some r →
  getAdditionalTypenames schema operation depth' = Some r.
Proof.
  intros Hle. unfold getAdditionalTypenames.
  destruct (getQueryType schema) as [q |]; [| done].
  apply forEach_mono. intros d a a' _.
  destruct d as [k ss | |]; [| done | done].
  apply forEach_mono. intros s b b' _.
  by apply exploreSelections_deeper.
Qed.

(** Without a root query type the walk is not started, whatever the
    operation carries. *)
Lemma getAdditionalTypenames_no_query_type schema operation depth :
  getQueryType schema = None →
  getAdditionalTypenames schema operation depth = Some [].
Proof. unfold getAdditionalTypenames. by intros ->. Qed.

(** With a root query type, a detection that returns gives the seed
    first (in its own order, repetitions dropped), then the discovered
    names, and nothing twice. *)
Lemma getAdditionalTypenames_seeded_first schema operation depth queryType r :
  getQueryType schema = Some queryType →
  getAdditionalTypenames schema operation depth = Some r →
  NoDup r
  ∧ (∀ hint, hint ∈ context_additionalTypenames (context operation) → hint ∈ r)
  ∧ Set_new (context_additionalTypenames (context operation))
      `sublist_of` context_additionalTypenames (context operation)
  ∧ ∃ discovered,
      r = Set_new (context_additionalTypenames (context operation))
            ++ discovered.
Proof.
  intros Hq Hr.
  destruct (getAdditionalTypenames_grows _ _ _ _ _ Hq Hr) as [Hpre Hnd].
  split_and!.
  - apply Hnd, Set_new_NoDup.
  - intros hint Hin. destruct Hpre as [k ->]. apply elem_of_app. left.
    by apply elem_of_Set_new.
  - apply Set_new_sublist.
  - destruct Hpre as [k ->]. by exists k.
Qed.

(** A detection whose root calls all have a well-founded call graph
    returns, for every stack that is deep enough. *)
Lemma getAdditionalTypenames_terminates schema operation :
  terminating schema operation →
  ∃ n : nat, ∀ m : nat, (n ≤ m)%nat →
    is_Some (getAdditionalTypenames schema operation m).
Proof.
  intros Hacc. unfold getAdditionalTypenames.
  destruct (getQueryType schema) as [q |] eqn:Hq; [| by exists 0; eauto].
  assert (∃ n : nat, ∀ (m : nat) k ss s a, (n ≤ m)%nat →
            OperationDefinition k ss ∈ query operation → s ∈ ss →
            is_Some (exploreSelections schema operation m s (Some q) false a))
    as [n Hn].
  { assert (∀ k ss s, OperationDefinition k ss ∈ query operation → s ∈ ss →
              Visited schema operation (s, Some q, false)) as Hroot
      by (intros; by eapply Visited_root).
    revert Hroot. generalize (query operation).
    intros ds. induction ds as [| d ds IH]; intros Hroot.
    - exists 0. intros m k ss s a _ Hd. by apply elem_of_nil in Hd.
    - destruct IH as [n2 H2].
      { intros k ss s Hd Hs. apply (Hroot k ss); [by right | done]. }
      assert (∃ n1 : nat, ∀ (m : nat) k ss s a, (n1 ≤ m)%nat →
                d = OperationDefinition k ss → s ∈ ss →
                is_Some (exploreSelections schema operation m s (Some q) false a))
        as [n1 H1].
      { destruct d as [k ss | |];
          [| exists 0; intros; discriminate | exists 0; intros; discriminate].
        destruct (bounded_calls schema operation ss (Some q) false) as [n1 H1].
        { intros s Hs.
          apply (exploreSelections_terminates schema operation (s, Some q, false)).
          apply Hacc, (Hroot k ss); [left | done]. }
        exists n1. intros m k' ss' s a Hm [= <- <-] Hs. by apply H1. }
      exists (n1 `max` n2). intros m k ss s a Hm Hd Hs.
      apply elem_of_cons in Hd as [Hd | Hd].
      + eapply H1; [lia | by symmetry | done].
      + eapply H2; [lia | done | done]. }
  exists n. intros m Hm. apply forEach_is_Some. intros d a Hd.
  destruct d as [k ss | |]; [| eauto | eauto].
  apply forEach_is_Some. intros s b Hs. by eapply Hn.
Qed.

(** ** Documents without fragment cycles terminate *)

Lemma spreadNames_elem (l : list SelectionNode) (s : SelectionNode) (n : string) :
  s ∈ l → n ∈ spreadNames s → n ∈ concat (map spreadNames l).
Proof.
  rewrite !list_elem_of_In. intros Hs Hn.
  apply in_concat. exists (spreadNames s). split; [by apply in_map | done].
Qed.

Lemma selectionSize_elem (l : list SelectionNode) (s : SelectionNode) :
  s ∈ l → (selectionSize s ≤ list_sum (map selectionSize l))%nat.
Proof.
  induction 1 as [s l | s s' l _ IH]; simpl; lia.
Qed.

Lemma stratified_Acc schema operation rank :
  stratified operation rank →
  ∀ (k m : nat) s p b,
    (∀ n, n ∈ spreadNames s → (rank n < k)%nat) →
    (selectionSize s ≤ m)%nat →
    Acc (flip (Calls schema operation)) (s, p, b).
Proof.
  intros Hstrat k.
  induction k as [k IHk] using lt_wf_ind.
  induction m as [| m IHm]; intros s p b Hrank Hsize.
  { destruct s as [? [l |] | ? | ? l]; simpl in Hsize; lia. }
  constructor. intros [[s' p'] b'] Hcall. unfold flip in Hcall.
  inversion Hcall as [f ss q c field s0 Hq Hf Hs0
                     | n q c fd t s0 Hfd Ht Htf Hs0
                     | c ss q c0 t s0 Ht Htf Hs0]; subst.
  - destruct ss as [l |]; simpl in Hs0; [| by apply elem_of_nil in Hs0].
    apply IHm.
    + intros n Hn. apply Hrank. simpl. by eapply spreadNames_elem.
    + pose proof (selectionSize_elem l s' Hs0). simpl in Hsize. lia.
  - apply (IHk (rank n)) with (m := selectionSize s').
    + apply Hrank. simpl. left.
    + intros n' Hn'. by eapply Hstrat.
    + done.
  - apply IHm.
    + intros n Hn. apply Hrank. simpl. by eapply spreadNames_elem.
    + pose proof (selectionSize_elem ss s' Hs0). simpl in Hsize. lia.
Qed.

(** A document whose fragments are stratified is walked to the end,
    against any schema. *)
Lemma stratified_terminating schema operation rank :
  stratified operation rank → terminating schema operation.
Proof.
  intros Hstrat [[s p] b] _.
  apply (stratified_Acc schema operation rank Hstrat
           (S (list_max (map rank (spreadNames s)))) (selectionSize s));
    [| done].
  intros n Hn.
  assert (In (rank n) (map rank (spreadNames s))) as Hin
    by (apply in_map; by apply list_elem_of_In).
  pose proof (proj1 (list_max_le (map rank (spreadNames s))
                       (list_max (map rank (spreadNames s)))) (le_n _))
    as Hall.
  rewrite List.Forall_forall in Hall. specialize (Hall _ Hin). lia.
Qed.

(** A detection that returns for some stack depth is a terminating one. *)
Lemma returns_terminating schema operation depth :
  is_Some (getAdditionalTypenames schema operation depth) →
  terminating schema operation.
Proof.
  intros [r Hr] x Hv.
  destruct (Visited_explored _ _ _ _ _ Hr Hv) as (d & a & a' & Ha & _).
  by eapply explored_Acc.
Qed.

(** A property of every returned result holds of the result that a
    terminating detection returns on a deep enough stack. *)
Lemma terminating_returns schema operation (P : list string → Prop) :
  (∀ depth r, getAdditionalTypenames schema operation depth = Some r → P r) →
  terminating schema operation →
  ∃ n : nat, ∀ m : nat, (n ≤ m)%nat →
    ∃ r, getAdditionalTypenames schema operation m = Some r ∧ P r.
Proof.
  intros HP Hterm.
  destruct (getAdditionalTypenames_terminates _ _ Hterm) as [n Hn].
  exists n. intros m Hm. destruct (Hn m Hm) as [r Hr]. exists r. eauto.
Qed.

(** ** Fragment lookup *)

Lemma foldl_insert_lookup_last (l : list FragmentDefinitionNode)
    (m : gmap string FragmentDefinitionNode) (n : string) :
  foldl (λ m d, <[fragmentName d := d]> m) m l !! n
  = match last (filter (λ d, fragmentName d = n) l) with
    | Some d => Some d
    | None => m !! n
    end.
Proof.
  revert m. induction l as [| d l IH]; intros m; simpl; [done |].
  rewrite IH, filter_cons. case_decide as Hd.
  - rewrite last_cons. destruct (last (filter _ l)); [done |].
    subst n. apply lookup_insert_eq.
  - destruct (last (filter _ l)); [done |]. by apply lookup_insert_ne.
Qed.

(** A resolved fragment is one of the document's fragment definitions and
    carries the name that was looked up. *)
Lemma resolveFragment_Some operation spreadName foundFragment :
  resolveFragment operation spreadName = Some foundFragment →
  FragmentDefinition foundFragment ∈ query operation
  ∧ fragmentName foundFragment = spreadName.
Proof.
  unfold resolveFragment, fragmentMap. rewrite foldl_insert_lookup_last.
  destruct (last _) as [d |] eqn:Hlast; [| by rewrite lookup_empty].
  intros [= ->]. apply last_Some_elem_of, list_elem_of_filter in Hlast
    as [Hname Hin].
  split; [| done].
  apply list_elem_of_omap in Hin as (x & Hx & Hd).
  destruct x; try done. by injection Hd as ->.
Qed.

(** A document whose fragments spread no fragment is stratified. *)
Lemma stratified_without_nested_spreads operation :
  (∀ fd s, FragmentDefinition fd ∈ query operation →
           s ∈ fragmentSelections fd → spreadNames s = []) →
  stratified operation (λ _, 0%nat).
Proof.
  intros Hflat n fd n' s Hfd Hs Hn'.
  apply resolveFragment_Some in Hfd as [Hfd _].
  rewrite (Hflat fd s Hfd Hs) in Hn'. by apply elem_of_nil in Hn'.
Qed.

(** ** The claims *)

(** C6: [isListType] is true exactly when the type, with its non-null
    wrappers unwrapped, is a list wrapper; the declared forms [[X]],
    [[X]!], [[X!]] and [[X!]!] are lists, and [X] and [X!] are not. *)
Theorem isListType_after_unwrapping_non_null :
  (∀ type, isListType type = true
           ↔ ∃ element, unwrapNonNull type = GraphQLList element)
  ∧ (∀ X,
       isListType (GraphQLList (Named X)) = true
       ∧ isListType (GraphQLNonNull (GraphQLList (Named X))) = true
       ∧ isListType (GraphQLList (GraphQLNonNull (Named X))) = true
       ∧ isListType
           (GraphQLNonNull (GraphQLList (GraphQLNonNull (Named X)))) = true
       ∧ isListType (Named X) = false
       ∧ isListType (GraphQLNonNull (Named X)) = false).
Proof.
  split; [apply isListType_unwrapNonNull | intros X; by split_and!].
Qed.

Lemma filter_none {A} (P : A → Prop) `{!∀ x, Decision (P x)} (l : list A) :
  (∀ x, x ∈ l → ¬ P x) → filter P l = [].
Proof.
  induction l as [| x l IH]; intros Hl; [done |].
  rewrite filter_cons, decide_False by (apply Hl; left).
  apply IH. intros y Hy. apply Hl. by right.
Qed.

(** The lookup, told on the list the code filters out of the document. *)
Lemma resolveFragment_fragmentDefinitions operation spreadName :
  resolveFragment operation spreadName
  = last (filter (λ d, fragmentName d = spreadName)
                 (fragmentDefinitions operation)).
Proof.
  unfold resolveFragment, fragmentMap. rewrite foldl_insert_lookup_last.
  destruct (last _); [done | apply lookup_empty].
Qed.

Lemma resolveFragment_after_last operation before fragment after :
  query operation = before ++ FragmentDefinition fragment :: after →
  (∀ later, FragmentDefinition later ∈ after →
            fragmentName later ≠ fragmentName fragment) →
  resolveFragment operation (fragmentName fragment) = Some fragment.
Proof.
  intros Hdoc Hlast.
  rewrite resolveFragment_fragmentDefinitions.
  unfold fragmentDefinitions. rewrite Hdoc, omap_app.
  set (asFragment := λ d, match d with
                          | FragmentDefinition f => Some f
                          | _ => None
                          end).
  change (omap asFragment (FragmentDefinition fragment :: after))
    with (fragment :: omap asFragment after).
  rewrite filter_app, filter_cons, decide_True by done.
  rewrite (filter_none _ (omap asFragment after)); [by rewrite last_snoc |].
  intros d Hd Hname.
  apply list_elem_of_omap in Hd as (x & Hx & Hd).
  destruct x; try done. injection Hd as ->. by apply (Hlast d).
Qed.

(** A name the document defines has a last definition. *)
Lemma last_definition_exists (l : list DefinitionNode) (spreadName : string)
    (defined : FragmentDefinitionNode) :
  FragmentDefinition defined ∈ l →
  fragmentName defined = spreadName →
  ∃ before fragment after,
    l = before ++ FragmentDefinition fragment :: after
    ∧ fragmentName fragment = spreadName
    ∧ ∀ later, FragmentDefinition later ∈ after →
               fragmentName later ≠ spreadName.
Proof.
  induction l as [| x l IH] using rev_ind; intros Hin Hname.
  { by apply elem_of_nil in Hin. }
  assert ((∃ fd, x = FragmentDefinition fd ∧ fragmentName fd = spreadName)
          ∨ ∀ fd, x = FragmentDefinition fd → fragmentName fd ≠ spreadName)
    as [(fd & -> & Hfd) | Hx].
  { destruct x as [k ss | fd |]; [by right | | by right].
    destruct (decide (fragmentName fd = spreadName)); [left; eauto |].
    right. by intros ? [= <-]. }
  - exists l, fd, []. split_and!; [done | done |].
    intros later Hlater. by apply elem_of_nil in Hlater.
  - apply elem_of_app in Hin as [Hin | Hin]; cycle 1.
    { apply list_elem_of_singleton in Hin. by destruct (Hx defined). }
    destruct (IH Hin Hname) as (before & fd & after & -> & Hfd & Hlast).
    exists before, fd, (after ++ [x]).
    split_and!; [by rewrite <- app_assoc | done |].
    intros later [Hlater | Hlater]%elem_of_app; [by apply Hlast |].
    apply list_elem_of_singleton in Hlater. by apply Hx.
Qed.

(** C10: a fragment spread resolves to the last fragment definition of
    that name in the document's order.  A name the document defines has a
    last definition, and a spread of the name resolves to it; and
    whichever definition has no definition of its name after it is the
    one a spread of the name resolves to, whatever comes before, so that
    no earlier definition of the name is ever returned. *)
Theorem resolveFragment_last_definition operation spreadName defined :
  FragmentDefinition defined ∈ query operation →
  fragmentName defined = spreadName →
  (∃ before fragment after,
     query operation = before ++ FragmentDefinition fragment :: after
     ∧ fragmentName fragment = spreadName
     ∧ (∀ later, FragmentDefinition later ∈ after →
                 fragmentName later ≠ spreadName)
     ∧ resolveFragment operation spreadName = Some fragment)
  ∧ (∀ before fragment after,
       query operation = before ++ FragmentDefinition fragment :: after →
       fragmentName fragment = spreadName →
       (∀ later, FragmentDefinition later ∈ after →
                 fragmentName later ≠ spreadName) →
       resolveFragment operation spreadName = Some fragment
       ∧ ∀ earlier, FragmentDefinition earlier ∈ before →
                    earlier ≠ fragment →
                    resolveFragment operation spreadName ≠ Some earlier).
Proof.
  intros Hin Hname.
  assert (∀ before fragment after,
    query operation = before ++ FragmentDefinition fragment :: after →
    fragmentName fragment = spreadName →
    (∀ later, FragmentDefinition later ∈ after →
              fragmentName later ≠ spreadName) →
    resolveFragment operation spreadName = Some fragment) as Hres.
  { intros before fragment after Hdoc <- Hlast.
    by eapply resolveFragment_after_last. }
  split.
  - destruct (last_definition_exists _ _ _ Hin Hname)
      as (before & fragment & after & Hdoc & Hfd & Hlast).
    exists before, fragment, after. split_and!; [done | done | done |].
    by eapply Hres.
  - intros before fragment after Hdoc Hfd Hlast.
    split; [by eapply Hres |].
    intros earlier _ Hne. rewrite (Hres _ _ _ Hdoc Hfd Hlast).
    by intros [= ->].
Qed.

(** C8: the debug option does not change the context that is computed:
    with [debug] true, false or absent the stage returns the same type
    names; the option only decides whether one diagnostic record, holding
    the operation and those names, is written. *)
Theorem debug_does_not_change_result schema depth operation debug debug' :
  fst <$> getContext {| opt_schema := schema; opt_debug := debug |}
                     depth operation
  = fst <$> getContext {| opt_schema := schema; opt_debug := debug' |}
                       depth operation
  ∧ snd <$> getContext {| opt_schema := schema; opt_debug := debug |}
                       depth operation
    = (λ names,
         if bool_decide (debug = Some true)
         then [ {| debug_operation := operation;
                   debug_additionalTypenames := names |} ]
         else [])
      <$> getAdditionalTypenames schema operation depth.
Proof.
  unfold getContext. simpl.
  destruct (getAdditionalTypenames schema operation depth) as [r |]; simpl;
    [| done].
  split; [done |]. by destruct debug as [[] |].
Qed.

(** X12: the context [getContext] returns is the incoming context with
    the [additionalTypenames] field set to the sequence the detection
    returned (which, when the schema has a root query type, begins with
    the seeded hints); every other field is passed through unchanged.
    A terminating detection does make [getContext] return. *)
Theorem getContext_replaces_only_additionalTypenames options operation :
  (∀ depth newContext console,
     getContext options depth operation = Some (newContext, console) →
     ∃ additionalTypenames,
       getAdditionalTypenames (opt_schema options) operation depth
         = Some additionalTypenames
       ∧ newContext
         = <["additionalTypenames" := CStrings additionalTypenames]>
             (context operation)
       ∧ newContext !! "additionalTypenames"
         = Some (CStrings additionalTypenames)
       ∧ (∀ key, key ≠ "additionalTypenames" →
                 newContext !! key = context operation !! key)
       ∧ (is_Some (getQueryType (opt_schema options)) →
          seededTypenames operation `prefix_of` additionalTypenames))
  ∧ (terminating (opt_schema options) operation →
     ∃ n : nat, ∀ m : nat, (n ≤ m)%nat →
       ∃ newContext console,
         getContext options m operation = Some (newContext, console)
         ∧ ∀ key, key ≠ "additionalTypenames" →
                  newContext !! key = context operation !! key).
Proof.
  split.
  - intros depth newContext console. unfold getContext.
    destruct (getAdditionalTypenames _ _ _) as [r |] eqn:Hr; simpl; [| done].
    intros [= <- _]. exists r. split_and!; [done | done | | |].
    + apply lookup_insert_eq.
    + intros key Hkey. by apply lookup_insert_ne.
    + intros [q Hq].
      by destruct (getAdditionalTypenames_grows _ _ _ _ _ Hq Hr).
  - intros Hterm.
    destruct (getAdditionalTypenames_terminates _ _ Hterm) as [n Hn].
    exists n. intros m Hm. destruct (Hn m Hm) as [r Hr].
    unfold getContext. rewrite Hr. simpl. eexists _, _. split; [done |].
    intros key Hkey. by apply lookup_insert_ne.
Qed.

(** ** Recording at inline fragments *)

Section Recording.
Context (schema : GraphQLSchema) (operation : Operation).

(** An inline fragment explored with the flag on leaves the name of its
    type in the set it returns. *)
Lemma inline_fragment_records depth condition selectionSet p t acc r :
  exploreSelections schema operation depth
    (InlineFragment (Some condition) selectionSet) p true acc = Some r →
  getType schema condition = Some t →
  isTypeWithFields (Some t) = true →
  name t ∈ r.
Proof.
  destruct depth as [| depth]; [done |]. simpl.
  unfold exploreInlineFragment. intros Hr Ht Htf.
  rewrite Ht, Htf in Hr. simpl in Hr.
  apply forEach_grows in Hr; [| by eauto using exploreSelections_grows].
  eapply grows_elem_of; [done |]. apply elem_of_Set_add. by left.
Qed.

End Recording.


(** C9: an inline fragment whose type condition names an interface type
    of the schema and that is explored with the is-list flag on has that
    interface's own name in the result: the recording step takes any type
    with selectable fields, object or interface. *)
Theorem inline_fragment_records_interface_name
    schema operation condition selectionSet parentType t :
  Visited schema operation
    (InlineFragment (Some condition) selectionSet, parentType, true) →
  getType schema condition = Some t →
  kind t = INTERFACE →
  (∀ depth r,
     getAdditionalTypenames schema operation depth = Some r → name t ∈ r)
  ∧ (terminating schema operation →
     ∃ n : nat, ∀ m : nat, (n ≤ m)%nat →
       ∃ r, getAdditionalTypenames schema operation m = Some r ∧ name t ∈ r)
  ∧ ∀ explore acc,
      exploreInlineFragment schema explore (Some condition) selectionSet
                            true acc
      = forEach (λ s, explore s (Some t) false) selectionSet
                (Set_add (name t) acc).
Proof.
  intros Hv Ht Hk.
  assert (isTypeWithFields (Some t) = true) as Htf.
  { unfold isTypeWithFields, isObjectType, isInterfaceType. by rewrite Hk. }
  assert (∀ depth r,
    getAdditionalTypenames schema operation depth = Some r → name t ∈ r)
    as Hpartial.
  { intros depth r Hr.
    destruct (Visited_explored _ _ _ _ _ Hr Hv) as (d & a & a' & Ha & Hg).
    simpl in Ha. eapply grows_elem_of; [done |].
    by eapply inline_fragment_records. }
  split_and!; [done | |].
  - by apply (terminating_returns schema operation (λ r, name t ∈ r)).
  - intros explore acc. unfold exploreInlineFragment. by rewrite Ht, Htf.
Qed.

Lemma forEach_singleton {A} (body : A → list string → option (list string))
    (x : A) (acc : list string) :
  forEach body [x] acc = body x acc.
Proof. simpl. by destruct (body x acc). Qed.

(** C5: whatever the traversal state, the recursion through a fragment
    spread is made with the is-list flag it was given, and the recursion
    into an inline fragment's selections is made with the flag off,
    whether the flag was on or off at the inline fragment (where it only
    decides the recording).  This holds of the methods for any recursion
    callback and of the walk itself, and it shows in what the walk
    returns: an inline fragment inside a spread fragment is recorded when
    and only when the spread was explored with the flag on, and an inline
    fragment directly inside an inline fragment is not recorded, even
    when the outer one was explored with the flag on. *)
Theorem spread_keeps_flag_inline_resets_it
    schema operation parentType isList acc depth
    spreadName foundFragment fragmentOnType
    condition selectionSet fieldType inner innerType :
  resolveFragment operation spreadName = Some foundFragment →
  getType schema (fragmentTypeCondition foundFragment) = Some fragmentOnType →
  isTypeWithFields (Some fragmentOnType) = true →
  getType schema condition = Some fieldType →
  isTypeWithFields (Some fieldType) = true →
  getType schema inner = Some innerType →
  isTypeWithFields (Some innerType) = true →
  (∀ explore,
     exploreFragmentSpread schema operation explore spreadName isList acc
     = forEach (λ s, explore s (Some fragmentOnType) isList)
               (fragmentSelections foundFragment) acc
     ∧ exploreInlineFragment schema explore (Some condition) selectionSet
                             isList acc
       = forEach (λ s, explore s (Some fieldType) false) selectionSet
                 (if isList then Set_add (name fieldType) acc else acc)
     ∧ exploreInlineFragment schema explore (Some condition) selectionSet
                             true acc
       = exploreInlineFragment schema explore (Some condition) selectionSet
                               false (Set_add (name fieldType) acc))
  ∧ exploreSelections schema operation (S depth)
      (FragmentSpread spreadName) parentType isList acc
    = forEach
        (λ s, exploreSelections schema operation depth s
                (Some fragmentOnType) isList)
        (fragmentSelections foundFragment) acc
  ∧ exploreSelections schema operation (S depth)
      (InlineFragment (Some condition) selectionSet) parentType isList acc
    = forEach
        (λ s, exploreSelections schema operation depth s
                (Some fieldType) false)
        selectionSet (if isList then Set_add (name fieldType) acc else acc)
  ∧ (∀ sub d r,
       InlineFragment (Some inner) sub ∈ fragmentSelections foundFragment →
       exploreSelections schema operation d
         (FragmentSpread spreadName) parentType true acc = Some r →
       inner ∈ r)
  ∧ (fragmentSelections foundFragment = [InlineFragment (Some inner) []] →
     exploreSelections schema operation (S (S depth))
       (FragmentSpread spreadName) parentType isList acc
     = Some (if isList then Set_add inner acc else acc))
  ∧ exploreSelections schema operation (S (S depth))
      (InlineFragment (Some condition) [InlineFragment (Some inner) []])
      parentType isList acc
    = Some (if isList then Set_add condition acc else acc).
Proof.
  intros Hfd Hft Hftf Ht Htf Hi Hif.
  assert (∀ explore b a,
    exploreFragmentSpread schema operation explore spreadName b a
    = forEach (λ s, explore s (Some fragmentOnType) b)
              (fragmentSelections foundFragment) a) as Hspread.
  { intros explore b a. unfold exploreFragmentSpread.
    by rewrite Hfd, Hft, Hftf. }
  assert (∀ explore ss b a,
    exploreInlineFragment schema explore (Some condition) ss b a
    = forEach (λ s, explore s (Some fieldType) false) ss
              (if b then Set_add (name fieldType) a else a)) as Hinline.
  { intros explore ss b a. unfold exploreInlineFragment.
    by rewrite Ht, Htf. }
  assert (∀ d b a,
    exploreSelections schema operation (S d)
      (InlineFragment (Some inner) []) (Some fragmentOnType) b a
    = Some (if b then Set_add inner a else a)) as Hprobe.
  { intros d b a. simpl. unfold exploreInlineFragment.
    by rewrite Hi, Hif, (getType_name _ _ _ Hi). }
  split_and!.
  - intros explore. split_and!; [apply Hspread | apply Hinline |].
    by rewrite !Hinline.
  - apply Hspread.
  - apply Hinline.
  - intros sub d r Hin Hr. destruct d as [| d]; [done |].
    simpl in Hr. rewrite Hspread in Hr.
    eapply forEach_elem in Hr as (a & a' & Ha & _ & Hg);
      [| by eauto using exploreSelections_grows | exact Hin].
    eapply grows_elem_of; [done |].
    rewrite <- (getType_name _ _ _ Hi). by eapply inline_fragment_records.
  - intros Hsel.
    change (exploreSelections schema operation (S (S depth))
              (FragmentSpread spreadName) parentType isList acc)
      with (exploreFragmentSpread schema operation
              (exploreSelections schema operation (S depth))
              spreadName isList acc).
    by rewrite Hspread, Hsel, forEach_singleton, Hprobe.
  - change (exploreSelections schema operation (S (S depth))
              (InlineFragment (Some condition)
                 [InlineFragment (Some inner) []]) parentType isList acc)
      with (exploreInlineFragment schema
              (exploreSelections schema operation (S depth))
              (Some condition) [InlineFragment (Some inner) []] isList acc).
    rewrite Hinline, forEach_singleton.
    assert (∀ a, exploreSelections schema operation (S depth)
                   (InlineFragment (Some inner) []) (Some fieldType) false a
                 = Some a) as ->.
    { intros a. simpl. unfold exploreInlineFragment. by rewrite Hi, Hif. }
    by rewrite (getType_name _ _ _ Ht).
Qed.

(** C4: a selection with a malformed reference (a field the parent type
    does not have, a parent type without selectable fields, a spread of an
    unknown fragment, a fragment or inline fragment whose type condition
    names a missing or fieldless type) is skipped: the method returns the
    set it was given, without a recursive call and without failing. *)
Theorem malformed_reference_is_skipped
    schema operation selectionNode parentType isList acc :
  malformedReference schema operation selectionNode parentType = true →
  (∀ explore,
     dispatch schema operation explore selectionNode parentType isList acc
     = Some acc)
  ∧ (∀ depth,
       exploreSelections schema operation (S depth) selectionNode parentType
                         isList acc
       = Some acc).
Proof.
  intros Hbad.
  assert (∀ explore,
    dispatch schema operation explore selectionNode parentType isList acc
    = Some acc) as Hskip.
  { intros explore. destruct selectionNode as [f ss | n | [c |] ss];
      simpl in *; [| | | done].
    - unfold exploreField. destruct (negb (isTypeWithFields parentType));
        [done |]. simpl in Hbad. apply bool_decide_eq_true in Hbad.
      by rewrite Hbad.
    - unfold exploreFragmentSpread.
      destruct (resolveFragment operation n); [| done]. by rewrite Hbad.
    - unfold exploreInlineFragment.
      destruct (getType schema c); [| done]. by rewrite Hbad. }
  split; [done |]. intros depth. simpl. apply Hskip.
Qed.

(** ** The test suite's scenarios *)

Module Scenarios.
Import TestSuite.

Example users_list : 
  getAdditionalTypenames sdl (request usersQuery) 3 = Some ["User"].
Proof. vm_compute. reflexivity. Qed.

Example nested_lists :
  getAdditionalTypenames sdl (request nestedQuery) 4 = Some ["User"; "Post"].
Proof. vm_compute. reflexivity. Qed.

Example interface_list_inline_fragments :
  getAdditionalTypenames sdl (request nodesQuery) 4 = Some ["User"; "Post"].
Proof. vm_compute. reflexivity. Qed.

Example sibling_lists_once :
  getAdditionalTypenames sdl (request siblingsQuery) 4
  = Some ["User"; "Post"].
Proof. vm_compute. reflexivity. Qed.

Example interface_list_through_fragment :
  getAdditionalTypenames sdl (request nodeFragmentQuery) 4
  = Some ["User"; "Post"].
Proof. vm_compute. reflexivity. Qed.

Example seeded_hints_kept :
  getAdditionalTypenames sdl (requestWith ["User"; "Post"] usersQuery) 3
  = Some ["User"; "Post"].
Proof. vm_compute. reflexivity. Qed.

Example second_definition_wins :
  getAdditionalTypenames sdl (request duplicateFragmentQuery) 4
  = Some ["User"; "Post"].
Proof. vm_compute. reflexivity. Qed.

(** A fragment that spreads itself exhausts any stack. *)
Example self_spreading_fragment depth :
  getAdditionalTypenames sdl (request loopQuery) depth = None.
Proof.
  assert (∀ d p b a,
    exploreSelections sdl (request loopQuery) d (FragmentSpread "Loop") p b a
    = None) as Hloop.
  { induction d as [| d IH]; intros p b a; [done |].
    simpl. unfold exploreFragmentSpread.
    change (resolveFragment (request loopQuery) "Loop")
      with (Some {| fragmentName := "Loop"; fragmentTypeCondition := "User";
                    fragmentSelections := [FragmentSpread "Loop"] |}).
    cbn -[exploreSelections sdl]. by rewrite IH. }
  destruct depth as [| depth]; [done |].
  unfold getAdditionalTypenames.
  destruct (getQueryType sdl) as [q |] eqn:Hq; [| by vm_compute in Hq].
  change (query (request loopQuery)) with loopQuery. unfold loopQuery.
  simpl. unfold exploreField.
  replace (isTypeWithFields (Some q)) with true
    by (vm_compute in Hq; by injection Hq as <-).
  simpl.
  replace (getFields q !! "users") with (Some (nonNullList "User"))
    by (vm_compute in Hq; by injection Hq as <-).
  simpl. by rewrite Hloop.
Qed.
(** The documents of the test suite nest no spread inside a fragment, so
    their detection returns against any schema. *)
Example test_documents_terminate schema :
  terminating schema (request nodeFragmentQuery)
  ∧ terminating schema (request duplicateFragmentQuery).
Proof.
  split; apply (stratified_terminating _ _ (λ _, 0%nat)),
    stratified_without_nested_spreads; intros fd s Hfd Hs;
    simpl in Hfd; repeat (apply elem_of_cons in Hfd as [Hfd | Hfd];
      [try discriminate; injection Hfd as -> |]);
    try (by apply elem_of_nil in Hfd);
    simpl in Hs; repeat (apply elem_of_cons in Hs as [-> | Hs]; [done |]);
    by apply elem_of_nil in Hs.
Qed.
End Scenarios.

(** ** The claims at concrete inputs *)

Section Concrete.
Import TestSuite.

(** C3: on a schema without a root query type the detection returns the
    empty array, and not the seeded hints: here the operation carries
    the hints [User] and [Post], the seeded set holds both, and the
    returned array holds neither. *)
Theorem no_query_type_returns_empty_array (depth : nat) :
  getQueryType sdlWithoutQuery = None
  ∧ seededTypenames (requestWith ["User"; "Post"] usersQuery)
    = ["User"; "Post"]
  ∧ getAdditionalTypenames sdlWithoutQuery
      (requestWith ["User"; "Post"] usersQuery) depth
    = Some [].
Proof. split_and!; vm_compute; reflexivity. Qed.

(** C2: a detection call whose caller-supplied hint is missing from the
    returned sequence: on a schema without a root query type the hint
    [Comment] of the operation is not in what the call returns, and the
    context republished for the operation has lost it. *)
Theorem seed_hint_missing_without_query_type (depth : nat) :
  "Comment" ∈ context_additionalTypenames
                (context (requestWith ["Comment"] nodesQuery))
  ∧ ∃ r newContext,
      getAdditionalTypenames sdlWithoutQuery
        (requestWith ["Comment"] nodesQuery) depth = Some r
      ∧ ("Comment" ∉ r)
      ∧ getContext {| opt_schema := sdlWithoutQuery; opt_debug := None |}
          depth (requestWith ["Comment"] nodesQuery)
        = Some (newContext, [])
      ∧ newContext !! "additionalTypenames" = Some (CStrings []).
Proof.
  split.
  - vm_compute. left.
  - exists [], (<["additionalTypenames" := CStrings []]>
                 (context (requestWith ["Comment"] nodesQuery))).
    split_and!; [vm_compute; reflexivity | apply not_elem_of_nil
                | vm_compute; reflexivity | apply lookup_insert_eq].
Qed.

(** C7: on a schema without a root query type the republished context
    does not hold the seeded-plus-discovered sequence: the operation
    carries the hints [User] and [Post], the set is seeded with both, and
    the context [getContext] returns carries the empty list under
    [additionalTypenames]; the other field of the context is passed
    through. *)
Theorem republished_hints_lost_without_query_type (depth : nat) :
  context (requestWith ["User"; "Post"] usersQuery) !! "additionalTypenames"
  = Some (CStrings ["User"; "Post"])
  ∧ seededTypenames (requestWith ["User"; "Post"] usersQuery)
    = ["User"; "Post"]
  ∧ ∃ newContext,
      getContext {| opt_schema := sdlWithoutQuery; opt_debug := Some false |}
        depth (requestWith ["User"; "Post"] usersQuery)
      = Some (newContext, [])
      ∧ newContext !! "additionalTypenames" = Some (CStrings [])
      ∧ newContext !! "url"
        = context (requestWith ["User"; "Post"] usersQuery) !! "url".
Proof.
  split_and!; [vm_compute; reflexivity | vm_compute; reflexivity |].
  exists (<["additionalTypenames" := CStrings []]>
            (context (requestWith ["User"; "Post"] usersQuery))).
  split_and!; [vm_compute; reflexivity | apply lookup_insert_eq
              | by apply lookup_insert_ne].
Qed.


(** The same field with a spread of a fragment on the object type [User]:
    [{ nodes { ...UserFragment } }] with
    [fragment UserFragment on User { name }] returns the empty list. *)
Lemma spread_condition_under_interface_list_not_recorded :
  (getQueryType sdl ≫= λ q, getFields q !! "nodes")
    = Some (nonNullList "Node")
  ∧ isListType (nonNullList "Node") = true
  ∧ isInterfaceType (getType sdl (getNamedType (nonNullList "Node"))) = true
  ∧ (fragmentTypeCondition
       <$> resolveFragment (request userSpreadQuery) "UserFragment")
      = Some "User"
  ∧ isTypeWithFields (getType sdl "User") = true
  ∧ getAdditionalTypenames sdl (request userSpreadQuery) 4 = Some []
  ∧ ¬ ∃ depth r,
        getAdditionalTypenames sdl (request userSpreadQuery) depth = Some r
        ∧ "User" ∈ r.
Proof.
  do 6 (split; [vm_compute; reflexivity |]).
  intros (depth & r & Hr & Hin).
  apply (getAdditionalTypenames_deeper _ _ _ (depth `max` 4)) in Hr; [| lia].
  assert (getAdditionalTypenames sdl (request userSpreadQuery)
            (depth `max` 4) = Some []) as Hnil.
  { apply (getAdditionalTypenames_deeper _ _ 4);
      [lia | vm_compute; reflexivity]. }
  rewrite Hnil in Hr. injection Hr as <-. by apply elem_of_nil in Hin.
Qed.

(** The root field [nodes] of the queries below is visited. *)
Lemma nodes_field_visited (ds : list DefinitionNode) k ss sub :
  ds = [OperationDefinition k [node "nodes" sub]]
  ∨ ds = [ss; OperationDefinition k [node "nodes" sub]] →
  ∃ q, getQueryType sdl = Some q
       ∧ isTypeWithFields (Some q) = true
       ∧ getFields q !! "nodes" = Some (nonNullList "Node")
       ∧ Visited sdl (request ds) (node "nodes" sub, Some q, false).
Proof.
  intros Hds.
  destruct (getQueryType sdl) as [q |] eqn:Hq; [| by vm_compute in Hq].
  exists q. split_and!; [done | | |].
  - vm_compute in Hq. by injection Hq as <-.
  - vm_compute in Hq. by injection Hq as <-.
  - apply (Visited_root sdl (request ds) q k [node "nodes" sub]);
      [done | | left].
    destruct Hds as [-> | ->]; simpl; [left | right; left].
Defined.


Lemma inline_fragment_interface_witness :
  getAdditionalTypenames sdl (request onInterfaceQuery) 4 = Some ["Node"]
  ∧ "Node" ∈ ["Node"]
  ∧ ∃ n : nat, ∀ m : nat, (n ≤ m)%nat →
      ∃ r, getAdditionalTypenames sdl (request onInterfaceQuery) m = Some r
           ∧ "Node" ∈ r.
Proof.
  assert (getAdditionalTypenames sdl (request onInterfaceQuery) 4
          = Some ["Node"]) as Hr by (vm_compute; reflexivity).
  split; [exact Hr |].
  destruct (nodes_field_visited onInterfaceQuery QUERY TypeSystemDefinition
              [on "Node" [leaf "id"]])
    as (q & Hq & Hqf & Hf & Hv); [by left |].
  destruct (getType sdl "Node") as [t |] eqn:Ht; [| by vm_compute in Ht].
  assert (name t = "Node" ∧ kind t = INTERFACE) as [Hn Hk].
  { vm_compute in Ht. by injection Ht as <-. }
  assert (Visited sdl (request onInterfaceQuery)
            (on "Node" [leaf "id"],
             getType sdl (getNamedType (nonNullList "Node")), true)) as Hvi.
  { eapply Visited_call; [exact Hv |].
    apply (Calls_field sdl (request onInterfaceQuery) "nodes"
             (Some [on "Node" [leaf "id"]]) q false (nonNullList "Node")
             (on "Node" [leaf "id"]) Hqf Hf).
    left. }
  destruct (inline_fragment_records_interface_name
              sdl (request onInterfaceQuery) "Node" [leaf "id"] _ t
              Hvi Ht Hk) as (Hpartial & Htotal & _).
  rewrite Hn in Hpartial, Htotal. split; [by apply (Hpartial 4) |].
  apply Htotal, (returns_terminating _ _ 4). by rewrite Hr.
Defined.

Lemma malformed_reference_witness :
  malformedReference sdl (request usersQuery)
    (node "friends" [leaf "name"]) (getType sdl "User") = true
  ∧ dispatch sdl (request usersQuery) neverCalled
      (node "friends" [leaf "name"]) (getType sdl "User") true ["User"]
    = Some ["User"]
  ∧ malformedReference sdl (request usersQuery)
      (FragmentSpread "Missing") (getType sdl "User") = true
  ∧ exploreSelections sdl (request usersQuery) 1
      (FragmentSpread "Missing") (getType sdl "User") true ["User"]
    = Some ["User"].
Proof.
  split_and!.
  - vm_compute. reflexivity.
  - apply (malformed_reference_is_skipped sdl (request usersQuery)
             (node "friends" [leaf "name"]) (getType sdl "User") true
             ["User"]).
    vm_compute. reflexivity.
  - vm_compute. reflexivity.
  - apply (malformed_reference_is_skipped sdl (request usersQuery)
             (FragmentSpread "Missing") (getType sdl "User") true
             ["User"]).
    vm_compute. reflexivity.
Defined.

Lemma spread_and_inline_flag_witness :
  exploreSelections sdl (request nodeFragmentQuery) 3
    (InlineFragment (Some "User") [InlineFragment (Some "Post") []])
    None true []
  = Some ["User"]
  ∧ ∃ r, exploreSelections sdl (request nodeFragmentQuery) 3
           (FragmentSpread "NodeFragment") None true [] = Some r
         ∧ "Post" ∈ r.
Proof.
  destruct (resolveFragment (request nodeFragmentQuery) "NodeFragment")
    as [fd |] eqn:Hfd; [| by vm_compute in Hfd].
  assert (fragmentTypeCondition fd = "Node"
          ∧ fragmentSelections fd
            = [on "User" [leaf "name"]; on "Post" [leaf "body"]])
    as [Hc Hsel].
  { vm_compute in Hfd. by injection Hfd as <-. }
  destruct (getType sdl "Node") as [t |] eqn:Ht; [| by vm_compute in Ht].
  destruct (getType sdl "User") as [u |] eqn:Hu; [| by vm_compute in Hu].
  destruct (getType sdl "Post") as [v |] eqn:Hv; [| by vm_compute in Hv].
  assert (isTypeWithFields (Some t) = true) as Htf.
  { vm_compute in Ht. by injection Ht as <-. }
  assert (isTypeWithFields (Some u) = true) as Huf.
  { vm_compute in Hu. by injection Hu as <-. }
  assert (isTypeWithFields (Some v) = true) as Hvf.
  { vm_compute in Hv. by injection Hv as <-. }
  rewrite <- Hc in Ht.
  destruct (spread_keeps_flag_inline_resets_it
              sdl (request nodeFragmentQuery) None true [] 1
              "NodeFragment" fd t "User" [leaf "name"] u "Post" v
              Hfd Ht Htf Hu Huf Hv Hvf)
    as (_ & _ & _ & Hmember & _ & Hprobe).
  split; [exact Hprobe |].
  destruct (exploreSelections sdl (request nodeFragmentQuery) 3
              (FragmentSpread "NodeFragment") None true []) as [r |] eqn:Hr;
    [| by vm_compute in Hr].
  exists r. split; [done |].
  apply (Hmember [leaf "body"] 3 r); [| exact Hr].
  rewrite Hsel. right. left.
Defined.

Lemma last_definition_witness :
  resolveFragment (request duplicateFragmentQuery) "F"
  = Some {| fragmentName := "F"; fragmentTypeCondition := "User";
            fragmentSelections := [node "posts" [leaf "title"]] |}
  ∧ resolveFragment (request duplicateFragmentQuery) "F"
    ≠ Some {| fragmentName := "F"; fragmentTypeCondition := "User";
              fragmentSelections := [leaf "name"] |}.
Proof.
  destruct (resolveFragment_last_definition
              (request duplicateFragmentQuery) "F"
              {| fragmentName := "F"; fragmentTypeCondition := "User";
                 fragmentSelections := [leaf "name"] |})
    as [_ Hlast]; [left | reflexivity |].
  destruct (Hlast
              [fragment "F" "User" [leaf "name"]]
              {| fragmentName := "F"; fragmentTypeCondition := "User";
                 fragmentSelections := [node "posts" [leaf "title"]] |}
              [OperationDefinition QUERY
                 [node "users" [FragmentSpread "F"]]])
    as [Hres Hearlier]; [reflexivity | reflexivity | |].
  { intros later Hlater.
    apply list_elem_of_singleton in Hlater. discriminate. }
  split; [exact Hres |].
  apply Hearlier; [left | discriminate].
Defined.

Lemma getContext_witness :
  getContext {| opt_schema := sdl; opt_debug := Some true |} 3
             (requestWith ["Post"] usersQuery)
  = Some (<["additionalTypenames" := CStrings ["Post"; "User"]]>
            (context (requestWith ["Post"] usersQuery)),
          [ {| debug_operation := requestWith ["Post"] usersQuery;
               debug_additionalTypenames := ["Post"; "User"] |} ])
  ∧ (<["additionalTypenames" := CStrings ["Post"; "User"]]>
       (context (requestWith ["Post"] usersQuery))) !! "url"
    = Some (CString "http://localhost:8000/graphql")
  ∧ ∃ n : nat, ∀ m : nat, (n ≤ m)%nat →
      is_Some (getContext {| opt_schema := sdl; opt_debug := Some true |} m
                          (requestWith ["Post"] usersQuery)).
Proof.
  assert (getContext {| opt_schema := sdl; opt_debug := Some true |} 3
            (requestWith ["Post"] usersQuery)
          = Some (<["additionalTypenames" := CStrings ["Post"; "User"]]>
                    (context (requestWith ["Post"] usersQuery)),
                  [ {| debug_operation := requestWith ["Post"] usersQuery;
                       debug_additionalTypenames := ["Post"; "User"] |} ]))
    as Hctx by (vm_compute; reflexivity).
  destruct (getContext_replaces_only_additionalTypenames
              {| opt_schema := sdl; opt_debug := Some true |}
              (requestWith ["Post"] usersQuery)) as [Hpartial Htotal].
  split_and!; [exact Hctx | |].
  - destruct (Hpartial _ _ _ Hctx) as (names & _ & _ & _ & Hframe & _).
    rewrite (Hframe "url"); [vm_compute; reflexivity | discriminate].
  - destruct Htotal as [n Hn].
    { apply (returns_terminating _ _ 3). vm_compute. eauto. }
    exists n. intros m Hm. destruct (Hn m Hm) as (c & k & Hc & _).
    rewrite Hc. eauto.
Defined.
End Concrete.


(** * Further properties of the walk *)

(** ** Adding sequences of names *)

Lemma addAll_app (l1 l2 acc : list string) :
  addAll (l1 ++ l2) acc = addAll l2 (addAll l1 acc).
Proof. unfold addAll. apply foldl_app. Qed.

Lemma elem_of_addAll (names acc : list string) (x : string) :
  x ∈ addAll names acc ↔ x ∈ acc ∨ x ∈ names.
Proof. apply elem_of_foldl_Set_add. Qed.

Lemma addAll_NoDup (names acc : list string) :
  NoDup acc → NoDup (addAll names acc).
Proof. apply foldl_Set_add_NoDup. Qed.

Lemma Set_add_absorb (x : string) (acc : list string) :
  x ∈ acc → Set_add x acc = acc.
Proof. intros Hx. unfold Set_add. by rewrite decide_True. Qed.

(** Names that are all present already change nothing. *)
Lemma addAll_absorb (names acc : list string) :
  (∀ x, x ∈ names → x ∈ acc) → addAll names acc = acc.
Proof.
  revert acc. induction names as [| x names IH]; intros acc Hin; [done |].
  unfold addAll. simpl. rewrite Set_add_absorb by (apply Hin; left).
  apply IH. intros y Hy. apply Hin. by right.
Qed.

(** Adding names, or adding the set made of them, is the same. *)
Lemma addAll_Set_new (names acc : list string) :
  addAll (Set_new names) acc = addAll names acc.
Proof.
  induction names as [| x names IH] using rev_ind; [done |].
  assert (Set_new (names ++ [x]) = Set_add x (Set_new names)) as ->
    by (unfold Set_new; by rewrite foldl_app).
  rewrite (addAll_app names [x]). unfold Set_add at 1. case_decide as Hx.
  - rewrite IH. symmetry. apply (Set_add_absorb x).
    apply elem_of_addAll. right. by apply elem_of_Set_new.
  - by rewrite addAll_app, IH.
Qed.

(** ** The walk adds a sequence of names that does not depend on the set *)

Lemma oblivious_skip : oblivious (λ acc, Some acc).
Proof. left. exists []. by intros acc. Qed.

Lemma oblivious_ext (f g : list string → option (list string)) :
  (∀ acc, f acc = g acc) → oblivious g → oblivious f.
Proof.
  intros Hfg [[names H] | H]; [left; exists names | right];
    intros acc; rewrite Hfg; apply H.
Qed.

Lemma forEach_oblivious {A} (body : A → list string → option (list string))
    (l : list A) :
  (∀ x, x ∈ l → oblivious (body x)) → oblivious (forEach body l).
Proof.
  induction l as [| x l IH]; intros Hbody.
  - left. by exists [].
  - destruct (Hbody x) as [[names1 H1] | H1]; [left | | right]; cycle 1.
    { intros acc. simpl. by rewrite H1. }
    destruct IH as [[names2 H2] | H2].
    { intros y Hy. apply Hbody. by right. }
    + left. exists (names1 ++ names2). intros acc. simpl.
      by rewrite H1, H2, addAll_app.
    + right. intros acc. simpl. by rewrite H1, H2.
Qed.

Lemma oblivious_after (names : list string)
    (step : list string → option (list string)) :
  oblivious step → oblivious (λ acc, step (addAll names acc)).
Proof.
  intros [[names' H] | H]; [left | right].
  - exists (names ++ names'). intros acc. by rewrite H, addAll_app.
  - intros acc. apply H.
Qed.

Section Oblivious.
Context (schema : GraphQLSchema) (operation : Operation).

Lemma addListField_addAll (field : GraphQLOutputType) (acc : list string) :
  addListFieldToAdditionalTypenames field acc
  = addAll (if isListType field then [getNamedType field] else []) acc.
Proof.
  destruct (isListType field) eqn:Hl.
  - by rewrite addListField_list.
  - unfold addListFieldToAdditionalTypenames. by rewrite Hl.
Qed.

Lemma dispatch_oblivious explore sel p b :
  (∀ s q c, oblivious (explore s q c)) →
  oblivious (dispatch schema operation explore sel p b).
Proof.
  intros Hexplore.
  eapply oblivious_ext;
    [intros acc; unfold dispatch, exploreField, exploreFragmentSpread,
       exploreInlineFragment; reflexivity |].
  destruct sel as [f ss | n | c ss].
  - destruct (negb (isTypeWithFields p)); [apply oblivious_skip |].
    destruct (p ≫= _) as [field |]; [| apply oblivious_skip].
    assert (oblivious
              (forEach (λ s, explore s (getType schema (getNamedType field))
                               (isListType field)) (selections ss))) as Hloop
      by (apply forEach_oblivious; intros s _; apply Hexplore).
    destruct (negb (isInterfaceType _)); [| done].
    apply (oblivious_after
             (if isListType field then [getNamedType field] else []))
      in Hloop.
    destruct Hloop as [[names H] | H]; [left; exists names | right];
      intros acc; rewrite addListField_addAll; apply H.
  - destruct (resolveFragment operation n); [| apply oblivious_skip].
    destruct (negb _); [apply oblivious_skip |].
    apply forEach_oblivious. intros s _. apply Hexplore.
  - destruct c as [c |]; [| apply oblivious_skip].
    destruct (getType schema c) as [t |]; [| apply oblivious_skip].
    destruct (negb _); [apply oblivious_skip |].
    destruct b.
    + apply (oblivious_after [name t]
               (forEach (λ s, explore s (Some t) false) ss)).
      apply forEach_oblivious. intros s _. apply Hexplore.
    + apply forEach_oblivious. intros s _. apply Hexplore.
Qed.

Lemma exploreSelections_oblivious depth sel p b :
  oblivious (exploreSelections schema operation depth sel p b).
Proof.
  revert sel p b. induction depth as [| depth IH]; intros sel p b.
  - by right.
  - apply (oblivious_ext _ (dispatch schema operation
             (exploreSelections schema operation depth) sel p b));
      [done | by apply dispatch_oblivious].
Qed.
End Oblivious.

(** ** Detection and the caller's hints *)

Lemma getAdditionalTypenames_walk schema operation depth :
  getAdditionalTypenames schema operation depth
  = match getQueryType schema with
    | None => Some []
    | Some queryType =>
        walkDefinitions schema operation depth queryType
                        (seededTypenames operation)
    end.
Proof. reflexivity. Qed.

Lemma walkDefinitions_oblivious schema operation depth queryType :
  oblivious (walkDefinitions schema operation depth queryType).
Proof.
  apply forEach_oblivious. intros d _.
  destruct d as [k ss | fd |]; [| apply oblivious_skip | apply oblivious_skip].
  apply forEach_oblivious. intros s _. apply exploreSelections_oblivious.
Qed.

(** The walk reads the operation's document only. *)
Lemma resolveFragment_query operation operation' spreadName :
  query operation = query operation' →
  resolveFragment operation spreadName = resolveFragment operation' spreadName.
Proof.
  unfold resolveFragment, fragmentMap, fragmentDefinitions. by intros ->.
Qed.

Lemma forEach_ext {A} (f g : A → list string → option (list string))
    (l : list A) (acc : list string) :
  (∀ x a, f x a = g x a) → forEach f l acc = forEach g l acc.
Proof.
  intros Hfg. revert acc. induction l as [| x l IH]; intros acc; simpl;
    [done |].
  rewrite Hfg. destruct (g x acc); [apply IH | done].
Qed.

Lemma exploreSelections_query schema operation operation' depth sel p b acc :
  query operation = query operation' →
  exploreSelections schema operation depth sel p b acc
  = exploreSelections schema operation' depth sel p b acc.
Proof.
  intros Hq. revert sel p b acc.
  induction depth as [| depth IH]; intros sel p b acc; [done |].
  destruct sel as [f ss | n | c ss]; simpl.
  - unfold exploreField. destruct (negb _); [done |].
    destruct (p ≫= _); [| done]. by apply forEach_ext.
  - unfold exploreFragmentSpread.
    rewrite (resolveFragment_query operation operation' n Hq).
    destruct (resolveFragment operation' n); [| done].
    destruct (negb _); [done |]. by apply forEach_ext.
  - unfold exploreInlineFragment. destruct c; [| done].
    destruct (getType schema _); [| done]. destruct (negb _); [done |].
    by apply forEach_ext.
Qed.

Lemma walkDefinitions_query schema operation operation' depth queryType acc :
  query operation = query operation' →
  walkDefinitions schema operation depth queryType acc
  = walkDefinitions schema operation' depth queryType acc.
Proof.
  intros Hq. unfold walkDefinitions. rewrite Hq. apply forEach_ext.
  intros d a. destruct d; [| done | done].
  apply forEach_ext. intros s a'. by apply exploreSelections_query.
Qed.

(** X4: on a schema with a root query type, what a detection returns for
    an operation that carries hints is the set seeded with those hints,
    to which the names returned for the same document without hints are
    added in their order; and the hints have no say in whether the
    detection returns. *)
Theorem hints_then_names_found_without_hints
    schema operation bare depth :
  is_Some (getQueryType schema) →
  query bare = query operation →
  context_additionalTypenames (context bare) = [] →
  getAdditionalTypenames schema operation depth
  = (λ found, addAll found (seededTypenames operation))
    <$> getAdditionalTypenames schema bare depth.
Proof.
  intros [q Hq] Hquery Hbare.
  rewrite !getAdditionalTypenames_walk, Hq.
  rewrite (walkDefinitions_query schema bare operation) by done.
  assert (seededTypenames bare = []) as ->
    by (unfold seededTypenames; by rewrite Hbare).
  destruct (walkDefinitions_oblivious schema operation depth q)
    as [[names H] | H]; rewrite !H; simpl; [| done].
  f_equal. change (addAll names []) with (Set_new names).
  by rewrite addAll_Set_new.
Qed.

(** X5: republishing is idempotent: an operation that already carries the
    context the stage returned for it is given that same context again,
    so a second pass of an operation through the stage changes nothing. *)
Theorem getContext_idempotent options depth operation newContext console :
  getContext options depth operation = Some (newContext, console) →
  ∃ console',
    getContext options depth (withContext operation newContext)
    = Some (newContext, console').
Proof.
  unfold getContext. rewrite !getAdditionalTypenames_walk.
  destruct (getQueryType (opt_schema options)) as [q |] eqn:Hq; simpl.
  - rewrite <- (walkDefinitions_query (opt_schema options) operation
                  (withContext operation newContext)) by done.
    destruct (walkDefinitions_oblivious (opt_schema options) operation depth q)
      as [[names H] | H]; rewrite !H; simpl; [| done].
    intros [= <- _].
    assert (seededTypenames
              (withContext operation
                 (<["additionalTypenames" :=
                      CStrings (addAll names (seededTypenames operation))]>
                    (context operation)))
            = addAll names (seededTypenames operation)) as ->.
    { unfold seededTypenames at 1, context_additionalTypenames. simpl.
      rewrite lookup_insert_eq. apply Set_new_id, addAll_NoDup, Set_new_NoDup. }
    rewrite (addAll_absorb names) by
      (intros x Hx; apply elem_of_addAll; by right).
    eexists. by rewrite insert_insert_eq.
  - intros [= <- _]. eexists. by rewrite insert_insert_eq.
Qed.

(** ** Exactly which names a detection returns *)

Lemma forEach_sound {A} (R : string → Prop)
    (body : A → list string → option (list string))
    (l : list A) (acc r : list string) :
  (∀ y a a', y ∈ l → body y a = Some a' → ∀ x, x ∈ a' → x ∈ a ∨ R x) →
  forEach body l acc = Some r → ∀ x, x ∈ r → x ∈ acc ∨ R x.
Proof.
  revert acc. induction l as [| y l IH]; intros acc Hbody Hr x Hx; simpl in Hr.
  - injection Hr as <-. by left.
  - destruct (body y acc) as [a' |] eqn:Hy; [| done].
    destruct (IH a') with (x := x) as [Hin | HR]; [| done | done | | by right].
    { intros z a b Hz. apply Hbody. by right. }
    eapply Hbody; [left | done | done].
Qed.

Section Exact.
Context (schema : GraphQLSchema) (operation : Operation).

(** A visited list field whose named type is no interface leaves that
    name in the set it returns. *)
Lemma field_records depth fieldName selectionSet parentType isList field acc r :
  exploreSelections schema operation depth
    (Field fieldName selectionSet) (Some parentType) isList acc = Some r →
  isTypeWithFields (Some parentType) = true →
  getFields parentType !! fieldName = Some field →
  isListType field = true →
  isInterfaceType (getType schema (getNamedType field)) = false →
  getNamedType field ∈ r.
Proof.
  destruct depth as [| depth]; [done |]. simpl. unfold exploreField.
  intros Hr Hp Hf Hlist Hiface. rewrite Hp in Hr. simpl in Hr.
  rewrite Hf, Hiface in Hr. simpl in Hr.
  apply forEach_grows in Hr; [| by eauto using exploreSelections_grows].
  eapply grows_elem_of; [done |].
  rewrite addListField_list by done. apply elem_of_Set_add. by left.
Qed.

(** Whatever a visited call adds to the set is recorded at one of the
    two places of [Records]. *)
Lemma exploreSelections_sound depth sel p b acc r :
  Visited schema operation (sel, p, b) →
  exploreSelections schema operation depth sel p b acc = Some r →
  ∀ x, x ∈ r → x ∈ acc ∨ Records schema operation x.
Proof.
  revert sel p b acc r.
  induction depth as [| depth IH]; intros sel p b acc r Hv; [done |].
  destruct sel as [f ss | n | c ss]; simpl.
  - unfold exploreField.
    destruct (isTypeWithFields p) eqn:Hp; simpl;
      [| intros [= <-] x Hx; by left].
    destruct p as [P |]; [simpl | done].
    destruct (getFields P !! f) as [field |] eqn:Hf;
      [| intros [= <-] x Hx; by left].
    intros Hr x Hx.
    eapply (forEach_sound (Records schema operation)) in Hr as [Hin | HR];
      [| by right | | exact Hx].
    + destruct (isInterfaceType (getType schema (getNamedType field)))
        eqn:Hiface; simpl in Hin; [by left |].
      destruct (isListType field) eqn:Hlist.
      * rewrite addListField_list in Hin by done.
        apply elem_of_Set_add in Hin as [-> | Hin]; [| by left].
        right. left. by exists f, ss, P, b, field.
      * unfold addListFieldToAdditionalTypenames in Hin.
        rewrite Hlist in Hin. by left.
    + intros s a a' Hs. apply IH.
      eapply Visited_call; [exact Hv | by apply Calls_field].
  - unfold exploreFragmentSpread.
    destruct (resolveFragment operation n) as [fd |] eqn:Hfd;
      [| intros [= <-] x Hx; by left].
    destruct (isTypeWithFields (getType schema (fragmentTypeCondition fd)))
      eqn:Htf; simpl; [| intros [= <-] x Hx; by left].
    destruct (isTypeWithFields_Some _ Htf) as [t Ht]. rewrite Ht in *.
    apply forEach_sound. intros s a a' Hs. apply IH.
    eapply Visited_call; [exact Hv | by eapply Calls_spread].
  - unfold exploreInlineFragment.
    destruct c as [c |]; [| intros [= <-] x Hx; by left].
    destruct (getType schema c) as [t |] eqn:Ht;
      [| intros [= <-] x Hx; by left].
    destruct (isTypeWithFields (Some t)) eqn:Htf; simpl;
      [| intros [= <-] x Hx; by left].
    intros Hr x Hx.
    eapply (forEach_sound (Records schema operation)) in Hr as [Hin | HR];
      [| by right | | exact Hx].
    + destruct b; [| by left].
      apply elem_of_Set_add in Hin as [-> | Hin]; [| by left].
      right. right. rewrite (getType_name _ _ _ Ht).
      by exists ss, p, t.
    + intros s a a' Hs. apply IH.
      eapply Visited_call; [exact Hv | by eapply Calls_inline].
Qed.

Lemma Records_returned depth r x :
  getAdditionalTypenames schema operation depth = Some r →
  Records schema operation x → x ∈ r.
Proof.
  intros Hr [(f & ss & P & b & field & Hv & Hp & Hf & Hl & Hi & <-)
            | (ss & p & t & Hv & Ht & Htf)].
  - destruct (Visited_explored _ _ _ _ _ Hr Hv) as (d & a & a' & Ha & Hg).
    simpl in Ha. eapply grows_elem_of; [done |]. by eapply field_records.
  - destruct (Visited_explored _ _ _ _ _ Hr Hv) as (d & a & a' & Ha & Hg).
    simpl in Ha. eapply grows_elem_of; [done |].
    rewrite <- (getType_name _ _ _ Ht). by eapply inline_fragment_records.
Qed.

Lemma returned_hint_or_Records depth r x :
  getAdditionalTypenames schema operation depth = Some r →
  x ∈ r →
  x ∈ context_additionalTypenames (context operation)
  ∨ Records schema operation x.
Proof.
  rewrite getAdditionalTypenames_walk.
  destruct (getQueryType schema) as [q |] eqn:Hq;
    [| intros [= <-] Hx; by apply elem_of_nil in Hx].
  intros Hr Hx.
  eapply (forEach_sound (Records schema operation)) in Hr as [Hin | HR];
    [left; by apply elem_of_Set_new | by right | | exact Hx].
  intros d a a' Hd. destruct d as [k ss | fd |];
    [| intros [= <-] y Hy; by left | intros [= <-] y Hy; by left].
  apply forEach_sound. intros s b b' Hs.
  apply exploreSelections_sound. by eapply Visited_root.
Qed.
End Exact.

(** X6: on a schema with a root query type, the names a detection returns
    are exactly the caller's hints and the names recorded at a visited
    list field whose named type is no interface or at a visited inline
    fragment reached with the is-list flag on; nothing else is returned,
    and a terminating detection returns such a result. *)
Theorem returned_names_are_hints_and_recorded schema operation :
  is_Some (getQueryType schema) →
  (∀ depth r,
     getAdditionalTypenames schema operation depth = Some r →
     ∀ x, x ∈ r ↔ x ∈ context_additionalTypenames (context operation)
                  ∨ Records schema operation x)
  ∧ (terminating schema operation →
     ∃ n : nat, ∀ m : nat, (n ≤ m)%nat →
       ∃ r, getAdditionalTypenames schema operation m = Some r
            ∧ ∀ x, x ∈ r ↔ x ∈ context_additionalTypenames (context operation)
                           ∨ Records schema operation x).
Proof.
  intros [q Hq].
  assert (∀ depth r,
    getAdditionalTypenames schema operation depth = Some r →
    ∀ x, x ∈ r ↔ x ∈ context_additionalTypenames (context operation)
                 ∨ Records schema operation x) as Hpartial.
  { intros depth r Hr x. split.
    - by eapply returned_hint_or_Records.
    - intros [Hhint | Hrec]; [| by eapply Records_returned].
      eapply grows_elem_of;
        [by eapply getAdditionalTypenames_grows | by apply elem_of_Set_new]. }
  split; [done |].
  by apply (terminating_returns schema operation
              (λ r, ∀ x, x ∈ r ↔ _ ∨ Records schema operation x)).
Qed.




(** ** Recording at list fields *)

(** X1: for a field whose declared type is a list (under any non-null
    wrappers) the name that is recorded is the innermost named type of
    the declaration, whatever wrappers lie below the first list layer, a
    list of lists included; for any other field nothing is recorded. *)
Theorem list_field_records_innermost_named_type field acc :
  addListFieldToAdditionalTypenames field acc
  = (if isListType field then Set_add (getNamedType field) acc else acc)
  ∧ (∀ x, x ∈ addListFieldToAdditionalTypenames field acc
          ↔ x ∈ acc ∨ (isListType field = true ∧ x = getNamedType field))
  ∧ (∀ X, addListFieldToAdditionalTypenames
            (GraphQLNonNull
               (GraphQLList (GraphQLList (GraphQLNonNull (Named X))))) acc
          = Set_add X acc).
Proof.
  assert (addListFieldToAdditionalTypenames field acc
          = (if isListType field then Set_add (getNamedType field) acc
             else acc)) as Heq.
  { destruct (isListType field) eqn:Hl; [by apply addListField_list |].
    unfold addListFieldToAdditionalTypenames. by rewrite Hl. }
  split_and!; [done | | done].
  intros x. rewrite Heq. destruct (isListType field).
  - rewrite elem_of_Set_add. split.
    + intros [-> | Hx]; [by right | by left].
    + intros [Hx | [_ ->]]; [by right | by left].
  - split; [by left | by intros [Hx | [? _]]].
Qed.

(** ** The caller's hints in the result *)

(** X3: on a schema with a root query type, every returned sequence has
    no repetition, holds every hint of the caller, and begins with the
    hints in their order, each at its first occurrence: it is the hints
    followed by the names found, and begins with the hint list itself
    when that list has no repetition.  A terminating detection returns
    such a sequence on every deep enough stack. *)
Theorem hints_first_without_repetition schema operation :
  is_Some (getQueryType schema) →
  (∀ depth r,
     getAdditionalTypenames schema operation depth = Some r →
     hintsFirst operation r)
  ∧ (terminating schema operation →
     ∃ n : nat, ∀ m : nat, (n ≤ m)%nat →
       ∃ r, getAdditionalTypenames schema operation m = Some r
            ∧ hintsFirst operation r).
Proof.
  intros [q Hq].
  assert (∀ depth r,
    getAdditionalTypenames schema operation depth = Some r →
    hintsFirst operation r) as Hpartial.
  { intros depth r Hr.
    destruct (getAdditionalTypenames_seeded_first _ _ _ _ _ Hq Hr)
      as (Hnd & Hin & Hsub & found & ->).
    unfold hintsFirst. split_and!; [done | done | by exists found | done |].
    intros Hhints. rewrite (Set_new_id _ Hhints). by exists found. }
  split; [done |].
  by apply (terminating_returns schema operation (hintsFirst operation)).
Qed.

(** ** Documents with and without fragment cycles *)

(** X8: for a document whose fragments can be ranked so that every
    fragment only spreads fragments of a smaller rank, the detection
    returns on every deep enough stack, against any schema, and so does
    the stage. *)
Theorem stratified_document_returns options operation rank :
  stratified operation rank →
  ∃ n : nat, ∀ m : nat, (n ≤ m)%nat →
    is_Some (getAdditionalTypenames (opt_schema options) operation m)
    ∧ is_Some (getContext options m operation).
Proof.
  intros Hstrat.
  destruct (getAdditionalTypenames_terminates (opt_schema options) operation)
    as [n Hn]; [by eapply stratified_terminating |].
  exists n. intros m Hm. destruct (Hn m Hm) as [r Hr].
  split; [by exists r |]. unfold getContext. rewrite Hr. simpl. eauto.
Qed.

Lemma Acc_no_cycle {A} (R : relation A) (x : A) :
  Acc (flip R) x → ¬ tc R x x.
Proof.
  induction 1 as [x _ IH]. intros Hcycle.
  inversion Hcycle as [? ? Hxx | ? y ? Hxy Hyx]; subst.
  - by apply (IH x Hxx), tc_once.
  - apply (IH y Hxy). by eapply tc_r.
Qed.

(** X9: when the walk reaches a call that, through further calls, leads
    back to itself (a fragment that spreads itself, directly or through
    other fragments), the detection returns on no stack, however deep:
    the recursion is not guarded against fragment cycles. *)
Theorem fragment_cycle_exhausts_every_stack options operation x :
  Visited (opt_schema options) operation x →
  tc (Calls (opt_schema options) operation) x x →
  ∀ depth,
    getAdditionalTypenames (opt_schema options) operation depth = None
    ∧ getContext options depth operation = None.
Proof.
  intros Hv Hcycle depth.
  assert (getAdditionalTypenames (opt_schema options) operation depth = None)
    as Hnone.
  { destruct (getAdditionalTypenames _ _ _) as [r |] eqn:Hr; [| done].
    destruct (Acc_no_cycle (Calls (opt_schema options) operation) x);
      [| done].
    apply (returns_terminating _ _ depth); [by rewrite Hr | done]. }
  split; [done |]. unfold getContext. by rewrite Hnone.
Qed.

(** ** Fragment lookup *)

(** X10: a fragment name resolves to nothing exactly when the document
    defines no fragment of that name; a fragment that is resolved is a
    definition of the document and carries the name looked up; and when
    only one definition carries a name, the name resolves to it. *)
Theorem resolveFragment_defined_names operation spreadName :
  (resolveFragment operation spreadName = None
   ↔ ∀ fd, FragmentDefinition fd ∈ query operation →
           fragmentName fd ≠ spreadName)
  ∧ (∀ fd, resolveFragment operation spreadName = Some fd →
           FragmentDefinition fd ∈ query operation
           ∧ fragmentName fd = spreadName)
  ∧ (∀ fd, FragmentDefinition fd ∈ query operation →
           fragmentName fd = spreadName →
           (∀ fd', FragmentDefinition fd' ∈ query operation →
                   fragmentName fd' = spreadName → fd' = fd) →
           resolveFragment operation spreadName = Some fd).
Proof.
  assert (∀ fd, FragmentDefinition fd ∈ query operation
                ↔ fd ∈ fragmentDefinitions operation) as Hdefs.
  { intros fd. unfold fragmentDefinitions. rewrite list_elem_of_omap. split.
    - intros Hin. by exists (FragmentDefinition fd).
    - intros (d & Hd & Heq). destruct d; try done. by injection Heq as ->. }
  assert (resolveFragment operation spreadName = None
          ↔ ∀ fd, FragmentDefinition fd ∈ query operation →
                  fragmentName fd ≠ spreadName) as Hnone.
  { unfold resolveFragment, fragmentMap. rewrite foldl_insert_lookup_last.
    split.
    - destruct (last _) eqn:Hlast; [done |]. intros _ fd Hfd Hname.
      apply last_None in Hlast.
      assert (fd ∈ filter (λ d, fragmentName d = spreadName)
                          (fragmentDefinitions operation)) as Hin
        by (apply list_elem_of_filter; split; [done | by apply Hdefs]).
      rewrite Hlast in Hin. by apply elem_of_nil in Hin.
    - intros Hno. destruct (last _) as [d |] eqn:Hlast;
        [| apply lookup_empty].
      apply last_Some_elem_of, list_elem_of_filter in Hlast as [Hname Hin].
      by destruct (Hno d); [apply Hdefs |]. }
  split_and!; [done | apply resolveFragment_Some |].
  intros fd Hfd Hname Huniq.
  destruct (resolveFragment operation spreadName) as [fd' |] eqn:Hres.
  - apply resolveFragment_Some in Hres as [Hin' Hname'].
    by rewrite (Huniq fd' Hin' Hname').
  - by destruct (proj1 Hnone eq_refl fd Hfd).
Qed.

(** ** List fields in the result *)

(** X2: the named type of every visited field whose declared type is a
    list and whose named type is no interface is in every returned
    result, and a terminating detection returns such a result; this holds
    at any nesting depth of the field. *)
Theorem visited_list_field_is_returned
    schema operation fieldName selectionSet parentType isList field :
  Visited schema operation
    (Field fieldName selectionSet, Some parentType, isList) →
  isTypeWithFields (Some parentType) = true →
  getFields parentType !! fieldName = Some field →
  isListType field = true →
  isInterfaceType (getType schema (getNamedType field)) = false →
  (∀ depth r,
     getAdditionalTypenames schema operation depth = Some r →
     getNamedType field ∈ r)
  ∧ (terminating schema operation →
     ∃ n : nat, ∀ m : nat, (n ≤ m)%nat →
       ∃ r, getAdditionalTypenames schema operation m = Some r
            ∧ getNamedType field ∈ r).
Proof.
  intros Hv Hp Hf Hl Hi.
  assert (∀ depth r,
    getAdditionalTypenames schema operation depth = Some r →
    getNamedType field ∈ r) as Hpartial.
  { intros depth r Hr.
    destruct (Visited_explored _ _ _ _ _ Hr Hv) as (d & a & a' & Ha & Hg).
    simpl in Ha. eapply grows_elem_of; [done |]. by eapply field_records. }
  split; [done |].
  by apply (terminating_returns schema operation
              (λ r, getNamedType field ∈ r)).
Qed.

(** ** The root type of the walk *)

Lemma forEach_map {A B} (f : A → B)
    (body : B → list string → option (list string))
    (l : list A) (acc : list string) :
  forEach body (map f l) acc = forEach (λ x, body (f x)) l acc.
Proof.
  revert acc. induction l as [| x l IH]; intros acc; simpl; [done |].
  destruct (body (f x) acc); [apply IH | done].
Qed.

Lemma fragmentDefinitions_retag k operation :
  fragmentDefinitions (withOperationType k operation)
  = fragmentDefinitions operation.
Proof.
  unfold fragmentDefinitions, withOperationType. simpl.
  induction (query operation) as [| d l IH]; [done |].
  destruct d as [k' ss | fd |]; simpl;
    [exact IH | f_equal; exact IH | exact IH].
Qed.

Lemma exploreSelections_fragments schema operation operation' depth
    sel p b acc :
  (∀ n, resolveFragment operation n = resolveFragment operation' n) →
  exploreSelections schema operation depth sel p b acc
  = exploreSelections schema operation' depth sel p b acc.
Proof.
  intros Hres. revert sel p b acc.
  induction depth as [| depth IH]; intros sel p b acc; [done |].
  destruct sel as [f ss | n | c ss]; simpl.
  - unfold exploreField. destruct (negb _); [done |].
    destruct (p ≫= _); [| done]. by apply forEach_ext.
  - unfold exploreFragmentSpread. rewrite Hres.
    destruct (resolveFragment operation' n); [| done].
    destruct (negb _); [done |]. by apply forEach_ext.
  - unfold exploreInlineFragment. destruct c; [| done].
    destruct (getType schema _); [| done]. destruct (negb _); [done |].
    by apply forEach_ext.
Qed.

(** X11: the walk never consults a mutation or subscription root type:
    the operation definitions of a document are all walked against the
    root query type, so declaring them as queries, mutations or
    subscriptions does not change what is returned. *)
Theorem operation_type_is_not_consulted schema operation k depth :
  getAdditionalTypenames schema (withOperationType k operation) depth
  = getAdditionalTypenames schema operation depth.
Proof.
  unfold getAdditionalTypenames.
  destruct (getQueryType schema) as [q |]; [| done].
  change (query (withOperationType k operation))
    with (map (retag k) (query operation)).
  change (seededTypenames (withOperationType k operation))
    with (seededTypenames operation).
  rewrite forEach_map. apply forEach_ext. intros d acc.
  destruct d as [k' ss | fd |]; simpl; [| done | done].
  apply forEach_ext. intros s a. apply exploreSelections_fragments.
  intros n. unfold resolveFragment, fragmentMap.
  by rewrite fragmentDefinitions_retag.
Qed.

(** ** The further properties at concrete inputs *)

Section ConcreteFurther.
Import TestSuite.

Lemma root_query_type_of_sdl :
  ∃ q, getQueryType sdl = Some q
       ∧ isTypeWithFields (Some q) = true
       ∧ getFields q !! "users" = Some (nonNullList "User")
       ∧ getFields q !! "nodes" = Some (nonNullList "Node").
Proof.
  destruct (getQueryType sdl) as [q |] eqn:Hq; [| by vm_compute in Hq].
  exists q. vm_compute in Hq. injection Hq as <-.
  split_and!; vm_compute; reflexivity.
Defined.

Lemma visited_list_field_witness :
  getAdditionalTypenames sdl (request usersQuery) 3 = Some ["User"]
  ∧ "User" ∈ ["User"].
Proof.
  assert (getAdditionalTypenames sdl (request usersQuery) 3 = Some ["User"])
    as Hr by (vm_compute; reflexivity).
  split; [exact Hr |].
  destruct root_query_type_of_sdl as (q & Hq & Hqf & Husers & _).
  refine (proj1 (visited_list_field_is_returned sdl (request usersQuery)
                   "users" (Some [leaf "id"; leaf "name"]) q false
                   (nonNullList "User") _ Hqf Husers _ _) 3 _ Hr);
    [| reflexivity | vm_compute; reflexivity].
  apply (Visited_root sdl (request usersQuery) q QUERY
           [node "users" [leaf "id"; leaf "name"]]); [exact Hq | left | left].
Defined.

Lemma hints_first_witness :
  getAdditionalTypenames sdl (requestWith ["User"; "Post"] usersQuery) 3
  = Some ["User"; "Post"]
  ∧ hintsFirst (requestWith ["User"; "Post"] usersQuery) ["User"; "Post"]
  ∧ ∃ n : nat, ∀ m : nat, (n ≤ m)%nat →
      ∃ r, getAdditionalTypenames sdl
             (requestWith ["User"; "Post"] usersQuery) m = Some r
           ∧ hintsFirst (requestWith ["User"; "Post"] usersQuery) r.
Proof.
  assert (getAdditionalTypenames sdl
            (requestWith ["User"; "Post"] usersQuery) 3
          = Some ["User"; "Post"]) as Hr by (vm_compute; reflexivity).
  destruct (hints_first_without_repetition sdl
              (requestWith ["User"; "Post"] usersQuery))
    as [Hpartial Htotal].
  { destruct root_query_type_of_sdl as (q & Hq & _). rewrite Hq. eauto. }
  split_and!; [exact Hr | exact (Hpartial 3 _ Hr) |].
  apply Htotal, (returns_terminating _ _ 3). by rewrite Hr.
Defined.


Lemma hints_then_names_witness :
  getAdditionalTypenames sdl (requestWith ["Post"; "Comment"] nestedQuery) 4
  = (λ found,
       addAll found
         (seededTypenames (requestWith ["Post"; "Comment"] nestedQuery)))
    <$> getAdditionalTypenames sdl (request nestedQuery) 4.
Proof.
  apply (hints_then_names_found_without_hints sdl
           (requestWith ["Post"; "Comment"] nestedQuery)
           (request nestedQuery) 4).
  - destruct root_query_type_of_sdl as (q & Hq & _). rewrite Hq. eauto.
  - reflexivity.
  - vm_compute. reflexivity.
Defined.

Lemma getContext_idempotent_witness :
  ∃ console',
    getContext {| opt_schema := sdl; opt_debug := None |} 3
      (withContext (requestWith ["Post"] usersQuery)
         (<["additionalTypenames" := CStrings ["Post"; "User"]]>
            (context (requestWith ["Post"] usersQuery))))
    = Some (<["additionalTypenames" := CStrings ["Post"; "User"]]>
              (context (requestWith ["Post"] usersQuery)), console').
Proof.
  apply (getContext_idempotent {| opt_schema := sdl; opt_debug := None |} 3
           (requestWith ["Post"] usersQuery) _ []).
  vm_compute. reflexivity.
Defined.

Lemma returned_names_witness :
  "Post" ∈ ["User"; "Post"]
  ↔ "Post" ∈ context_additionalTypenames (context (request nodesQuery))
    ∨ Records sdl (request nodesQuery) "Post".
Proof.
  refine (proj1 (returned_names_are_hints_and_recorded sdl
                   (request nodesQuery) _) 4 ["User"; "Post"] _ "Post").
  - destruct root_query_type_of_sdl as (q & Hq & _). rewrite Hq. eauto.
  - vm_compute. reflexivity.
Defined.

Lemma stratified_document_witness :
  stratified (request nestedSpreadQuery)
    (λ n, if String.eqb n "Outer" then 1%nat else 0%nat)
  ∧ ∃ n : nat, ∀ m : nat, (n ≤ m)%nat →
      is_Some (getAdditionalTypenames sdl (request nestedSpreadQuery) m)
      ∧ is_Some (getContext {| opt_schema := sdl; opt_debug := None |} m
                            (request nestedSpreadQuery)).
Proof.
  assert (stratified (request nestedSpreadQuery)
            (λ n, if String.eqb n "Outer" then 1%nat else 0%nat)) as Hstrat.
  { intros n fd sp s Hres Hs Hsp.
    apply resolveFragment_Some in Hres as [Hfd <-].
    simpl in Hfd.
    apply elem_of_cons in Hfd as [Hfd | Hfd]; [injection Hfd as -> |].
    - simpl in Hs. apply list_elem_of_singleton in Hs as ->.
      simpl in Hsp. apply list_elem_of_singleton in Hsp as ->.
      simpl. lia.
    - apply elem_of_cons in Hfd as [Hfd | Hfd]; [injection Hfd as -> |].
      + simpl in Hs. apply list_elem_of_singleton in Hs as ->.
        simpl in Hsp. by apply elem_of_nil in Hsp.
      + apply elem_of_cons in Hfd as [Hfd | Hfd]; [discriminate |].
        by apply elem_of_nil in Hfd. }
  split; [exact Hstrat |].
  exact (stratified_document_returns
           {| opt_schema := sdl; opt_debug := None |}
           (request nestedSpreadQuery) _ Hstrat).
Defined.

Lemma fragment_cycle_witness :
  getAdditionalTypenames sdl (request loopQuery) 50 = None
  ∧ getContext {| opt_schema := sdl; opt_debug := None |} 50
               (request loopQuery) = None.
Proof.
  destruct root_query_type_of_sdl as (q & Hq & Hqf & Husers & _).
  assert (Visited sdl (request loopQuery)
            (FragmentSpread "Loop", getType sdl "User", true)) as Hv.
  { eapply Visited_call.
    - apply (Visited_root sdl (request loopQuery) q QUERY
               [node "users" [FragmentSpread "Loop"]]);
        [exact Hq | right; left | left].
    - apply (Calls_field sdl (request loopQuery) "users"
               (Some [FragmentSpread "Loop"]) q false (nonNullList "User")
               (FragmentSpread "Loop") Hqf Husers).
      left. }
  destruct (getType sdl "User") as [t |] eqn:Ht; [| by vm_compute in Ht].
  assert (isTypeWithFields (Some t) = true) as Htf.
  { vm_compute in Ht. by injection Ht as <-. }
  apply (fragment_cycle_exhausts_every_stack
           {| opt_schema := sdl; opt_debug := None |} (request loopQuery)
           (FragmentSpread "Loop", Some t, true) Hv).
  apply tc_once.
  apply (Calls_spread sdl (request loopQuery) "Loop" (Some t) true
           {| fragmentName := "Loop"; fragmentTypeCondition := "User";
              fragmentSelections := [FragmentSpread "Loop"] |} t
           (FragmentSpread "Loop"));
    [vm_compute; reflexivity | exact Ht | exact Htf | left].
Defined.
End ConcreteFurther.
